(** * Blog utilities: [BlogPostManager] and [SEOMetadataBuilder]

    A shallow embedding of [src/utils/BlogPostManager.ts] and
    [src/utils/SEOMetadataBuilder.ts].

    JavaScript objects and arrays are reference values.  Both classes are
    therefore embedded over one heap of cells, in a small state-and-exception
    monad: array methods that build a new array allocate a cell, [sort] and
    [push] overwrite the cell of their receiver, and property assignment
    overwrites one object cell.  Post records are never assigned to by the
    code and are embedded as plain records. *)

From Stdlib Require Import QArith.
From stdpp Require Import base gmap list strings sorting pretty.

(** ** Numbers

    The only non-integer numbers the code computes are quotients of two array
    lengths, their differences, and comparisons of those with zero.  A number
    is embedded as an exact rational or one of the three special values of
    IEEE arithmetic; finite values are kept reduced, so that equal numbers are
    equal terms.  Array lengths are below [2^32], two quotients with the same
    denominator therefore round to different doubles exactly when they differ,
    and the order of the doubles is the order of the rationals. *)

Module Num.

Inductive number := NaN | PInf | NInf | Fin (q : Q).

Definition of_Z (z : Z) : number := Fin (inject_Z z).

(** [a.length / b.length] *)
Definition div_len (a b : nat) : number :=
  match b with
  | O => match a with O => NaN | S _ => PInf end
  | S _ => Fin (Qred (Z.of_nat a # Pos.of_nat b))
  end.

(** [x - y] *)
Definition sub (x y : number) : number :=
  match x, y with
  | NaN, _ | _, NaN => NaN
  | PInf, PInf | NInf, NInf => NaN
  | PInf, _ | _, NInf => PInf
  | NInf, _ | _, PInf => NInf
  | Fin a, Fin b => Fin (Qred (a - b))
  end.

(** [x > 0] *)
Definition gt0 (x : number) : bool :=
  match x with
  | NaN | NInf => false
  | PInf => true
  | Fin q => negb (Qle_bool q 0)
  end.

(** [Math.ceil(n / d)] for a non-negative integer [n] and a positive
    integer [d]: the quotient of two such integers below [2^53] is either an
    integer, and then exact, or further from every integer than its
    rounding error, so the result is the integer ceiling. *)
Definition ceil_div (n d : Z) : Z := (- ((- n) / d))%Z.

End Num.

Import Num.

(** ** Strings *)

(** [s.includes(sub)] *)
Fixpoint includes (s sub : string) : bool :=
  String.prefix sub s ||
  match s with
  | EmptyString => false
  | String _ s' => includes s' sub
  end.

(** [tags.includes(tag)] on an array of strings *)
Definition Array_includes (l : list string) (x : string) : bool :=
  existsb (String.eqb x) l.

(** Text scanned by character class is a sequence of UTF-16 code units. *)
Definition code_unit := N.
Definition ustring := list code_unit.

(** The class [\s] of regular expressions, which is also what [trim]
    strips: WhiteSpace and LineTerminator. *)
Definition is_space (c : code_unit) : bool :=
  ((9 <=? c) && (c <=? 13) || (c =? 32) || (c =? 160) || (c =? 5760)
   || (8192 <=? c) && (c <=? 8202) || (c =? 8232) || (c =? 8233)
   || (c =? 8239) || (c =? 8287) || (c =? 12288) || (c =? 65279))%N.

Fixpoint trimStart (s : ustring) : ustring :=
  match s with
  | c :: s' => if is_space c then trimStart s' else s
  | [] => []
  end.

Definition trimEnd (s : ustring) : ustring := reverse (trimStart (reverse s)).

(** [s.trim()] *)
Definition trim (s : ustring) : ustring := trimEnd (trimStart s).

(** [s.split(/\s+/)]: the pieces between maximal runs of white space.  [acc]
    holds the current piece reversed; [in_run] tells that the previous code
    unit was white space, so that a run closes the piece before it once.  The
    piece after the last run is always emitted, also when it is empty. *)
Fixpoint split_spaces_from (in_run : bool) (acc : ustring) (s : ustring) : list ustring :=
  match s with
  | [] => [reverse acc]
  | c :: s' =>
      if is_space c then
        if in_run then split_spaces_from true acc s'
        else reverse acc :: split_spaces_from true [] s'
      else split_spaces_from false (c :: acc) s'
  end.

Definition split_spaces (s : ustring) : list ustring := split_spaces_from false [] s.

(** ** Array helpers on values *)

(** [l.slice(start, end)] for integral arguments *)
Definition Array_slice_list {A} (start end_ : Z) (l : list A) : list A :=
  let len := Z.of_nat (length l) in
  let k := if (start <? 0)%Z then Z.max (len + start) 0 else Z.min start len in
  let final := if (end_ <? 0)%Z then Z.max (len + end_) 0 else Z.min end_ len in
  take (Z.to_nat (Z.max (final - k) 0)) (drop (Z.to_nat k) l).

(** [l.sort(cmp)].  The language fixes the result, not the algorithm: for a
    comparator that orders the elements consistently, the sort is stable and
    [cmp x y > 0] places [x] after [y].  Insertion from the right is one such
    algorithm; [stable_sorted_unique] below shows that every other one
    returns the same list. *)
Fixpoint sort_insert {A} (cmp : A → A → number) (x : A) (l : list A) : list A :=
  match l with
  | [] => [x]
  | y :: l' => if gt0 (cmp x y) then y :: sort_insert cmp x l' else x :: l
  end.

Fixpoint Array_sort_list {A} (cmp : A → A → number) (l : list A) : list A :=
  match l with
  | [] => []
  | x :: l' => sort_insert cmp x (Array_sort_list cmp l')
  end.

(** ** Data model *)

(** [BlogMetadata] of [src/types/blog.ts]; dates are milliseconds since the
    epoch, and an optional field that is absent is [None]. *)
Record BlogMetadata := {
  title : string;
  description : string;
  pubDatetime : Z;
  modDatetime : option Z;
  author : string;
  tags : list string;
  featured : option bool;
  draft : option bool;
  ogImage : option string;
  canonicalURL : option string;
}.

(** [CollectionEntry<"blog">], as far as the code reads it *)
Record Post := { id : string; data : BlogMetadata }.

Record RelatedPost := { post : Post; relevanceScore : number }.

Record ReadingTimeResult := { minutes : Z; text : string; words : Z }.

(** ** The heap *)

Definition loc := positive.

Inductive value := VUndefined | VString (s : string) | VRef (l : loc).

Inductive cell :=
| Obj (o : gmap string value)
| PostArr (l : list Post)
| RelArr (l : list RelatedPost).

Abbreviation heap := (gmap loc cell).

(** [!v] is [negb (truthy v)] *)
Definition truthy (v : value) : bool :=
  match v with
  | VUndefined => false
  | VString s => negb (String.eqb s "")
  | VRef _ => true
  end.

(** ** The monad: state, exceptions, and [Stuck] for what the type checker
    excludes (a reference used at another type than its cell has) *)

Inductive outcome (A : Type) :=
| Ret (a : A) (h : heap)
| Throw (msg : string) (h : heap)
| Stuck.
Arguments Ret {A} a h.
Arguments Throw {A} msg h.
Arguments Stuck {A}.

Definition M (A : Type) := heap → outcome A.

Definition ret {A} (a : A) : M A := λ h, Ret a h.
Definition bind {A B} (m : M A) (k : A → M B) : M B :=
  λ h, match m h with
       | Ret a h' => k a h'
       | Throw msg h' => Throw msg h'
       | Stuck => Stuck
       end.
Definition throw {A} (msg : string) : M A := λ h, Throw msg h.
Definition stuck {A} : M A := λ _, Stuck.

Notation "'let!' x ':=' m 'in' k" := (bind m (λ x, k))
  (at level 10, x pattern, m at level 100, k at level 200).
Notation "m ';;;' k" := (bind m (λ _, k))
  (at level 100, k at level 200, right associativity).

Definition alloc (c : cell) : M loc :=
  λ h, let l := fresh (dom h) in Ret l (<[l := c]> h).
Definition load (l : loc) : M cell :=
  λ h, match h !! l with Some c => Ret c h | None => Stuck end.
Definition store (l : loc) (c : cell) : M unit :=
  λ h, match h !! l with Some _ => Ret () (<[l := c]> h) | None => Stuck end.

(** *** Objects *)

(** [o[k]]; a property that was never set reads as [undefined] *)
Definition get_prop (l : loc) (k : string) : M value :=
  let! c := load l in
  match c with
  | Obj o => ret (default VUndefined (o !! k))
  | _ => stuck
  end.

(** [o[k] = v] *)
Definition set_prop (l : loc) (k : string) (v : value) : M unit :=
  let! c := load l in
  match c with
  | Obj o => store l (Obj (<[k := v]> o))
  | _ => stuck
  end.

(** [{ ...o }]: a new object with the properties of [o] *)
Definition spread (l : loc) : M loc :=
  let! c := load l in
  match c with
  | Obj o => alloc (Obj o)
  | _ => stuck
  end.

(** *** Arrays, generic in the element type as [Array<T>] is *)

Class ArrayOf (A : Type) := {
  to_cell : list A → cell;
  of_cell : cell → option (list A);
  of_to_cell l : of_cell (to_cell l) = Some l;
}.

#[export] Instance ArrayOf_Post : ArrayOf Post := {|
  to_cell := PostArr;
  of_cell c := match c with PostArr l => Some l | _ => None end;
  of_to_cell _ := eq_refl;
|}.

#[export] Instance ArrayOf_RelatedPost : ArrayOf RelatedPost := {|
  to_cell := RelArr;
  of_cell c := match c with RelArr l => Some l | _ => None end;
  of_to_cell _ := eq_refl;
|}.

Definition Array_read `{ArrayOf A} (a : loc) : M (list A) :=
  let! c := load a in
  match of_cell c with Some l => ret l | None => stuck end.

(** [[...]] *)
Definition Array_new `{ArrayOf A} (l : list A) : M loc := alloc (to_cell l).

(** [a.filter(f)] *)
Definition Array_filter `{ArrayOf A} (f : A → bool) (a : loc) : M loc :=
  let! l := Array_read a in Array_new (filter (λ x, f x) l).

(** [a.map(f)] *)
Definition Array_map `{ArrayOf A, ArrayOf B} (f : A → B) (a : loc) : M loc :=
  let! l := Array_read a in Array_new (f <$> l).

(** [a.slice(start, end)] *)
Definition Array_slice `{ArrayOf A} (start end_ : Z) (a : loc) : M loc :=
  let! l := Array_read (A:=A) a in Array_new (Array_slice_list start end_ l).

(** [a.sort(cmp)] sorts in place and returns its receiver *)
Definition Array_sort `{ArrayOf A} (cmp : A → A → number) (a : loc) : M loc :=
  let! l := Array_read a in
  store a (to_cell (Array_sort_list cmp l));;;
  ret a.

(** [a.find(f)] *)
Definition Array_find `{ArrayOf A} (f : A → bool) (a : loc) : M (option A) :=
  let! l := Array_read a in ret (find (λ x, f x) l).

(** [a.length] *)
Definition Array_length `{ArrayOf A} (a : loc) : M Z :=
  let! l := Array_read (A:=A) a in ret (Z.of_nat (length l)).

(** [a.push(x)] *)
Definition Array_push `{ArrayOf A} (a : loc) (x : A) : M unit :=
  let! l := Array_read a in store a (to_cell (l ++ [x])).

(** [l.forEach(f)], with the variables the callback assigns to threaded
    through as [s] *)
Fixpoint forEach {A S} (f : S → A → M S) (l : list A) (s : S) : M S :=
  match l with
  | [] => ret s
  | x :: l' => let! s' := f s x in forEach f l' s'
  end.

(** *** [Map<number, V>]: keys in insertion order *)

Definition Map_get {V} (m : list (Z * V)) (k : Z) : option V :=
  snd <$> find (λ kv, bool_decide (kv.1 = k)) m.

Fixpoint Map_set {V} (m : list (Z * V)) (k : Z) (v : V) : list (Z * V) :=
  match m with
  | [] => [(k, v)]
  | (k', v') :: m' =>
      if bool_decide (k' = k) then (k, v) :: m' else (k', v') :: Map_set m' k v
  end.

(** ** [BlogPostManager] *)

Record BlogPostManager := { posts : loc }.

Section BlogPostManager.

(** [String.prototype.toLowerCase], from the Unicode case tables, and
    [Date.prototype.getFullYear], which uses the zone of the host: both are
    parameters of the development. *)
Variable toLowerCase : string → string.
Variable getFullYear : Z → Z.

(** Modelled from the spec: [getSortedPosts] of [src/utils/getSortedPosts.ts]
    is imported by the class and absent from the sources.  The constructor
    "immediately produces an internally retained copy sorted by descending
    publish timestamp (ties broken by original relative order — a stable sort
    is required)". *)
Definition getSortedPosts (input : loc) : M loc :=
  let! l := Array_read input in
  Array_new
    (Array_sort_list
       (λ a b : Post, of_Z (pubDatetime (data b) - pubDatetime (data a))) l).

Definition new_BlogPostManager (input : loc) : M BlogPostManager :=
  let! sorted := getSortedPosts input in
  ret {| posts := sorted |}.

Definition getPostsByTag (this : BlogPostManager) (tag : string) : M loc :=
  Array_filter (λ post : Post, Array_includes (tags (data post)) tag) (posts this).

Definition getFeaturedPosts (this : BlogPostManager) : M loc :=
  Array_filter (λ post : Post, bool_decide (featured (data post) = Some true))
    (posts this).

Definition getPostsByAuthor (this : BlogPostManager) (author_ : string) : M loc :=
  Array_filter (λ post : Post, String.eqb (author (data post)) author_) (posts this).

Definition getRecentPosts (this : BlogPostManager) (limit : option Z) : M loc :=
  let limit := default 5%Z limit in
  Array_slice (A:=Post) 0 limit (posts this).

(** The callback of [map] in [findRelatedPosts] *)
Definition score (currentTags : list string) (post : Post) : RelatedPost :=
  let commonTags :=
    filter (λ tag, Array_includes currentTags tag) (tags (data post)) in
  let relevanceScore := div_len (length commonTags) (length currentTags) in
  {| post := post; relevanceScore := relevanceScore |}.

Definition findRelatedPosts (this : BlogPostManager) (currentPost : Post)
    (limit : option Z) : M loc :=
  let limit := default 3%Z limit in
  let currentTags := tags (data currentPost) in
  let! candidates :=
    Array_filter (λ post : Post, negb (String.eqb (id post) (id currentPost)))
      (posts this) in
  let! scored := Array_map (score currentTags) candidates in
  let! relevant :=
    Array_filter (λ item : RelatedPost, gt0 (relevanceScore item)) scored in
  let! scoredPosts :=
    Array_sort
      (λ a b : RelatedPost, sub (relevanceScore b) (relevanceScore a)) relevant in
  Array_slice (A:=RelatedPost) 0 limit scoredPosts.

Definition calculateReadingTime (content : ustring) : ReadingTimeResult :=
  let wordsPerMinute := 200%Z in
  let words := Z.of_nat (length (split_spaces (trim content))) in
  let minutes := ceil_div words wordsPerMinute in
  {| minutes := minutes; text := pretty minutes +:+ " min read"; words := words |}.

Definition getPostById (this : BlogPostManager) (id_ : string) : M (option Post) :=
  Array_find (λ post : Post, String.eqb (id post) id_) (posts this).

Definition searchPosts (this : BlogPostManager) (keyword : string) : M loc :=
  let lowerKeyword := toLowerCase keyword in
  Array_filter
    (λ post : Post,
       includes (toLowerCase (title (data post))) lowerKeyword
       || includes (toLowerCase (description (data post))) lowerKeyword
       || existsb (λ tag, includes (toLowerCase tag) lowerKeyword)
            (tags (data post)))
    (posts this).

Definition getAllPosts (this : BlogPostManager) : M loc := ret (posts this).

Definition getPostCount (this : BlogPostManager) : M Z :=
  Array_length (A:=Post) (posts this).

Definition groupPostsByYear (this : BlogPostManager) : M (list (Z * loc)) :=
  let! l := Array_read (posts this) in
  forEach
    (λ (groupedPosts : list (Z * loc)) (post : Post),
       let year := getFullYear (pubDatetime (data post)) in
       let! yearPosts :=
         match Map_get groupedPosts year with
         | Some a => ret a
         | None => Array_new (A:=Post) []
         end in
       Array_push yearPosts post;;;
       ret (Map_set groupedPosts year yearPosts))
    l [].

End BlogPostManager.

(** ** [SEOMetadataBuilder] *)

Definition required_msg : string := "Title and description are required".

(** [x || d] and [x ? a : b] test a string for being absent or empty *)
Definition present (x : option string) : bool :=
  match x with
  | Some s => truthy (VString s)
  | None => false
  end.

Definition object (props : list (string * value)) : cell := Obj (list_to_map props).

Section SEOMetadataBuilder.

(** [SITE.website] and [SITE.title] of the site configuration, and
    [Date.prototype.toISOString]: parameters of the development. *)
Variable SITE_website SITE_title : string.
Variable toISOString : Z → string.

(** [new SEOMetadataBuilder()]: the field initialiser [metadata = {}] runs *)
Definition new_SEOMetadataBuilder : M loc :=
  let! metadata := alloc (Obj ∅) in
  alloc (object [("metadata", VRef metadata)]).

(** [this.metadata] *)
Definition metadata_of (this : loc) : M loc :=
  let! v := get_prop this "metadata" in
  match v with
  | VRef m => ret m
  | _ => stuck
  end.

Definition setBasicMetadata (this : loc) (title description : string) : M loc :=
  let! m := metadata_of this in
  set_prop m "title" (VString title);;;
  let! m := metadata_of this in
  set_prop m "description" (VString description);;;
  ret this.

Definition setCanonical (this : loc) (url : string) : M loc :=
  let! m := metadata_of this in
  set_prop m "canonical" (VString url);;;
  ret this.

Definition setOpenGraph (this : loc) (og : loc) : M loc :=
  let! m := metadata_of this in
  set_prop m "openGraph" (VRef og);;;
  ret this.

Definition setTwitter (this : loc) (twitter : loc) : M loc :=
  let! m := metadata_of this in
  set_prop m "twitter" (VRef twitter);;;
  ret this.

Definition setSchema (this : loc) (schema : loc) : M loc :=
  let! m := metadata_of this in
  set_prop m "schema" (VRef schema);;;
  ret this.

Definition fromBlogPost (post : Post) (baseUrl : string) : M loc :=
  let! builder := new_SEOMetadataBuilder in
  let url := baseUrl +:+ "/posts/" +:+ id post in
  let imageUrl :=
    if present (ogImage (data post))
    then baseUrl +:+ default "" (ogImage (data post))
    else baseUrl +:+ "/og.png" in
  setBasicMetadata builder (title (data post)) (description (data post));;;
  setCanonical builder
    (if present (canonicalURL (data post))
     then default "" (canonicalURL (data post)) else url);;;
  let! og :=
    alloc (object [("title", VString (title (data post)));
                   ("description", VString (description (data post)));
                   ("image", VString imageUrl);
                   ("type", VString "article")]) in
  setOpenGraph builder og;;;
  let! twitter :=
    alloc (object [("card", VString "summary_large_image");
                   ("site", VString SITE_website);
                   ("creator", VString (author (data post)))]) in
  setTwitter builder twitter;;;
  let! author_ :=
    alloc (object [("@type", VString "Person");
                   ("name", VString (author (data post)))]) in
  let! logo :=
    alloc (object [("@type", VString "ImageObject");
                   ("url", VString (baseUrl +:+ "/favicon.svg"))]) in
  let! publisher :=
    alloc (object [("@type", VString "Organization");
                   ("name", VString SITE_title);
                   ("logo", VRef logo)]) in
  let! schema :=
    alloc (object ([("@context", VString "https://schema.org");
                    ("@type", VString "BlogPosting");
                    ("headline", VString (title (data post)));
                    ("description", VString (description (data post)));
                    ("image", VString imageUrl);
                    ("datePublished", VString (toISOString (pubDatetime (data post))))]
                   ++ match modDatetime (data post) with
                      | Some d => [("dateModified", VString (toISOString d))]
                      | None => []
                      end
                   ++ [("author", VRef author_);
                       ("publisher", VRef publisher)])) in
  setSchema builder schema;;;
  ret builder.

Definition build (this : loc) : M loc :=
  let! m := metadata_of this in
  let! title := get_prop m "title" in
  let! missing :=
    if negb (truthy title) then ret true
    else
      let! m := metadata_of this in
      let! description := get_prop m "description" in
      ret (negb (truthy description)) in
  if missing : bool then throw required_msg
  else metadata_of this.

Definition getPartial (this : loc) : M loc := metadata_of this.

Definition reset (this : loc) : M loc :=
  let! empty := alloc (Obj ∅) in
  set_prop this "metadata" (VRef empty);;;
  ret this.

Definition clone (this : loc) : M loc :=
  let! builder := new_SEOMetadataBuilder in
  let! m := metadata_of this in
  let! copy := spread m in
  set_prop builder "metadata" (VRef copy);;;
  ret builder.

End SEOMetadataBuilder.

(** * Specifications *)

(** [returns m h Q]: from heap [h], [m] terminates normally, with a result
    and a final heap that satisfy [Q]. *)
Definition returns {A} (m : M A) (h : heap) (Q : A → heap → Prop) : Prop :=
  ∃ a h', m h = Ret a h' ∧ Q a h'.

(** A method that computes a new array from its receiver allocates it and
    changes nothing else. *)
Definition fresh_array `{ArrayOf A} (h : heap) (l : list A) (r : loc) (h' : heap) :=
  h !! r = None ∧ h' = <[r := to_cell l]> h.

(** On the elements of [l], the comparator asks for descending keys. *)
Definition descending_on {A} (cmp : A → A → number) (key : A → Z) (l : list A) : Prop :=
  ∀ x y, x ∈ l → y ∈ l → gt0 (cmp x y) = true ↔ (key x < key y)%Z.

Definition key_ge {A} (key : A → Z) (x y : A) : Prop := (key y ≤ key x)%Z.

(** ** What [findRelatedPosts] leaves in the array it returns, as a function
    of the list the manager holds: [ranked_list] before [slice] *)

Definition ranked_list (l : list Post) (currentPost : Post) : list RelatedPost :=
  Array_sort_list
    (λ a b : RelatedPost, sub (relevanceScore b) (relevanceScore a))
    (filter (λ item : RelatedPost, gt0 (relevanceScore item))
       (score (tags (data currentPost))
          <$> filter (λ post : Post, negb (String.eqb (id post) (id currentPost))) l)).

Definition related_list (l : list Post) (currentPost : Post) (limit : option Z)
    : list RelatedPost :=
  Array_slice_list 0 (default 3%Z limit) (ranked_list l currentPost).

(** ** The relevance scorer in the words of the specification *)

#[export] Instance Q_eq_dec : EqDecision Q.
Proof. solve_decision. Defined.

#[export] Instance number_eq_dec : EqDecision number.
Proof. solve_decision. Defined.

(** [tags(candidate) ∩ tags(reference)]: the tags of the candidate that the
    reference carries too *)
Definition common_tags (candidate reference : Post) : list string :=
  list_intersection (tags (data candidate)) (tags (data reference)).

(** [|tags(candidate) ∩ tags(reference)| / |tags(reference)|], for a
    reference that has a tag *)
Definition spec_score (candidate reference : Post) : number :=
  Fin (Qred (Z.of_nat (length (common_tags candidate reference))
             # Pos.of_nat (length (tags (data reference))))).





(** A score in the closed range from 0 to 1 *)
Definition in_unit_range (s : number) : Prop :=
  ∃ q, s = Fin q ∧ (0 <= q)%Q ∧ (q <= 1)%Q.

(** The arrays of a [Map] under construction were allocated after [h0]. *)
Definition groups_fresh (h0 h : heap) (m : list (Z * loc)) : Prop :=
  h0 ⊆ h ∧ ∀ k a, (k, a) ∈ m → h0 !! a = None ∧ ∃ ps, h !! a = Some (PostArr ps).

(** ** Sequences of calls on one manager *)

Inductive query :=
| QByTag (tag : string)
| QByAuthor (author_ : string)
| QFeatured
| QRecent (limit : option Z)
| QById (id_ : string)
| QSearch (keyword : string)
| QGroupByYear
| QCount
| QRelated (currentPost : Post) (limit : option Z)
| QAll.

Inductive answer :=
| APosts (a : loc)
| APost (p : option Post)
| ANumber (n : Z)
| AGroups (g : list (Z * loc)).

Section queries.
Variable toLowerCase : string → string.
Variable getFullYear : Z → Z.

Definition run_query (this : BlogPostManager) (q : query) : M answer :=
  match q with
  | QByTag tag => let! a := getPostsByTag this tag in ret (APosts a)
  | QByAuthor author_ => let! a := getPostsByAuthor this author_ in ret (APosts a)
  | QFeatured => let! a := getFeaturedPosts this in ret (APosts a)
  | QRecent limit => let! a := getRecentPosts this limit in ret (APosts a)
  | QById id_ => let! p := getPostById this id_ in ret (APost p)
  | QSearch keyword => let! a := searchPosts toLowerCase this keyword in ret (APosts a)
  | QGroupByYear => let! g := groupPostsByYear getFullYear this in ret (AGroups g)
  | QCount => let! n := getPostCount this in ret (ANumber n)
  | QRelated currentPost limit =>
      let! a := findRelatedPosts this currentPost limit in ret (APosts a)
  | QAll => let! a := getAllPosts this in ret (APosts a)
  end.

Fixpoint run_queries (this : BlogPostManager) (qs : list query) : M (list answer) :=
  match qs with
  | [] => ret []
  | q :: qs' =>
      let! a := run_query this q in
      let! answers := run_queries this qs' in
      ret (a :: answers)
  end.

End queries.

(** ** Builders in the heap *)

(** [this] is a builder: an object, apart from the object [m] that its field
    [metadata] refers to, and [m] holds the properties [om]. *)
Definition builder_at (h : heap) (this m : loc) (om : gmap string value) : Prop :=
  this ≠ m
  ∧ (∃ ob, h !! this = Some (Obj ob) ∧ ob !! "metadata" = Some (VRef m))
  ∧ h !! m = Some (Obj om).

(** The value of a property, [undefined] when it was never set *)
Definition field (om : gmap string value) (k : string) : value :=
  default VUndefined (om !! k).

Definition absent_or_empty (v : value) : Prop := v = VUndefined ∨ v = VString "".

(** The nested blocks are objects in the heap, apart from the builder and
    from its metadata object. *)
Definition blocks_apart (h : heap) (this m : loc) (om : gmap string value) : Prop :=
  ∀ k l, om !! k = Some (VRef l) → l ≠ this ∧ l ≠ m ∧ is_Some (h !! l).

(** What a reader of the builder sees: the properties accumulated, and the
    content of the three nested blocks. *)
Definition block_of (h : heap) (om : gmap string value) (k : string) : option cell :=
  match om !! k with
  | Some (VRef l) => h !! l
  | _ => None
  end.

Definition observe (h : heap) (this : loc)
    : option (gmap string value * option cell * option cell * option cell) :=
  match h !! this with
  | Some (Obj ob) =>
      match ob !! "metadata" with
      | Some (VRef m) =>
          match h !! m with
          | Some (Obj om) =>
              Some (om, block_of h om "openGraph", block_of h om "twitter",
                    block_of h om "schema")
          | _ => None
          end
      | _ => None
      end
  | _ => None
  end.

(** The ways a caller changes what a builder has accumulated: the setters,
    [reset], and an assignment to a property of the object that [getPartial]
    hands out, [b.getPartial()[k] = v]. *)
Inductive mutation :=
| MSetBasicMetadata (title description : string)
| MSetCanonical (url : string)
| MSetOpenGraph (og : loc)
| MSetTwitter (twitter : loc)
| MSetSchema (schema : loc)
| MReset
| MAssign (k : string) (v : value).

Definition mutate (this : loc) (μ : mutation) : M unit :=
  match μ with
  | MSetBasicMetadata title description =>
      setBasicMetadata this title description;;; ret ()
  | MSetCanonical url => setCanonical this url;;; ret ()
  | MSetOpenGraph og => setOpenGraph this og;;; ret ()
  | MSetTwitter twitter => setTwitter this twitter;;; ret ()
  | MSetSchema schema => setSchema this schema;;; ret ()
  | MReset => reset this;;; ret ()
  | MAssign k v => let! m := getPartial this in set_prop m k v
  end.

(** [b.getPartial()[block][k]] and [b.getPartial()[block][k] = v]: a read
    and an assignment inside a nested block.  Both throw when the block is
    not set; a string has no such property, and none can be assigned to it. *)
Definition read_nested (this : loc) (block k : string) : M value :=
  let! m := getPartial this in
  let! b := get_prop m block in
  match b with
  | VRef l => get_prop l k
  | VString _ => ret VUndefined
  | VUndefined => throw "TypeError"
  end.

Definition assign_nested (this : loc) (block k : string) (v : value) : M unit :=
  let! m := getPartial this in
  let! b := get_prop m block in
  match b with
  | VRef l => set_prop l k v
  | _ => throw "TypeError"
  end.

(** ** Sample data *)

Module Sample.

Definition mk (i : string) (date : Z) (ts : list string) : Post :=
  {| id := i;
     data := {| title := "Post " +:+ i; description := "About " +:+ i;
                pubDatetime := date; modDatetime := None; author := "ann";
                tags := ts; featured := None; draft := None;
                ogImage := None; canonicalURL := None |} |}.

Definition pa : Post := mk "one" 30 ["a"].
Definition pab : Post := mk "two" 20 ["a"; "b"].
Definition pc : Post := mk "three" 20 ["c"].
Definition reference : Post := mk "ref" 10 ["a"; "b"].
Definition untagged : Post := mk "plain" 10 [].
Definition repeated : Post := mk "twice" 40 ["a"; "a"].
Definition single : Post := mk "single" 10 ["a"].

(** A heap holding one array of posts, and the manager that holds it *)
Definition arr : loc := 1%positive.
Definition heap_of (l : list Post) : heap := {[ arr := PostArr l ]}.
Definition manager : BlogPostManager := {| posts := arr |}.

(** Lower-casing of the letters A to Z. *)
Definition lower_ascii (c : Ascii.ascii) : Ascii.ascii :=
  let n := Ascii.nat_of_ascii c in
  if (65 <=? n)%nat && (n <=? 90)%nat then Ascii.ascii_of_nat (n + 32) else c.

Fixpoint lower (s : string) : string :=
  match s with
  | EmptyString => EmptyString
  | String c s' => String (lower_ascii c) (lower s')
  end.

(** A heap with one builder that has a title, a description and a
    structured-data block *)
Definition schema_loc : loc := 1%positive.
Definition metadata_loc : loc := 2%positive.
Definition builder_loc : loc := 3%positive.

Definition builder_props : gmap string value :=
  <["schema" := VRef schema_loc]>
    (<["description" := VString "A description"]>
       (<["title" := VString "A title"]> ∅)).

Definition builder_heap : heap :=
  <[builder_loc := object [("metadata", VRef metadata_loc)]]>
    (<[metadata_loc := Obj builder_props]>
       (<[schema_loc := object [("@type", VString "BlogPosting")]]> ∅)).

(** A builder with a structured-data block, and its clone *)
Definition cloned : M (loc * loc) :=
  let! schema := alloc (object [("@type", VString "BlogPosting")]) in
  let! b := new_SEOMetadataBuilder in
  setBasicMetadata b "A title" "A description";;;
  setSchema b schema;;;
  let! c := clone b in
  ret (b, c).

(** A post that gives the empty string as its canonical URL *)
Definition empty_canonical : Post :=
  {| id := "one";
     data := {| title := "Post one"; description := "About one";
                pubDatetime := 30; modDatetime := None; author := "ann";
                tags := ["a"]; featured := None; draft := None;
                ogImage := None; canonicalURL := Some "" |} |}.

Definition iso (ms : Z) : string := pretty ms.

(** The year of a date in a zone where every year has 365 days. *)
Definition year (ms : Z) : Z := (1970 + ms / 31536000000)%Z.

End Sample.

(** * Further specifications *)

(** The distinct elements of a list, in the order in which each occurs
    first *)
Definition distinct_in_order (l : list Z) : list Z :=
  foldl (λ seen y, if decide (y ∈ seen) then seen else seen ++ [y]) [] l.

(** The year under which [groupPostsByYear] files a post *)
Definition year_of (getFullYear : Z → Z) (p : Post) : Z :=
  getFullYear (pubDatetime (data p)).

(** The state of [groupPostsByYear] after the posts [seen]: the [Map] has the
    years of these posts as keys, in the order in which the years occur
    first, and the array of each year, allocated after [h0] and referred to
    under that year only, holds the posts of that year in the order seen. *)
Definition grouped (getFullYear : Z → Z) (h0 h : heap) (seen : list Post)
    (m : list (Z * loc)) : Prop :=
  h0 ⊆ h
  ∧ m.*1 = distinct_in_order (year_of getFullYear <$> seen)
  ∧ NoDup m.*2
  ∧ ∀ y a, (y, a) ∈ m →
      h0 !! a = None
      ∧ h !! a = Some (PostArr (filter (λ p, year_of getFullYear p = y) seen)).

(** The number of words of a text: of maximal runs of code units that are not
    white space.  [in_word] tells that the previous code unit was part of a
    word. *)
Fixpoint count_words_from (in_word : bool) (s : ustring) : nat :=
  match s with
  | [] => 0
  | c :: s' =>
      if is_space c then count_words_from false s'
      else (if in_word then 0 else 1) + count_words_from true s'
  end.

Definition count_words (s : ustring) : nat := count_words_from false s.

(** The last code unit of a text is part of a word. *)
Fixpoint ends_in_word (s : ustring) : bool :=
  match s with
  | [] => false
  | c :: s' =>
      match s' with
      | [] => negb (is_space c)
      | _ :: _ => ends_in_word s'
      end
  end.

(** The properties that a mutation other than [reset] assigns, in the order
    of the assignments *)
Definition written (μ : mutation) : list (string * value) :=
  match μ with
  | MSetBasicMetadata title description =>
      [("title", VString title); ("description", VString description)]
  | MSetCanonical url => [("canonical", VString url)]
  | MSetOpenGraph og => [("openGraph", VRef og)]
  | MSetTwitter twitter => [("twitter", VRef twitter)]
  | MSetSchema schema => [("schema", VRef schema)]
  | MReset => []
  | MAssign k v => [(k, v)]
  end.

Definition assign_all (props : list (string * value)) (om : gmap string value)
    : gmap string value :=
  foldl (λ o kv, <[kv.1 := kv.2]> o) om props.

(** ** More sample data *)

Module Fixture.

(** Posts of two years of [Sample.year] *)
Definition early : Post := Sample.mk "early" 5 ["x"].
Definition mid : Post := Sample.mk "mid" 7 ["y"].
Definition late : Post := Sample.mk "late" 40000000000 ["x"; "y"].

End Fixture.

(** * Reasoning about runs *)

Lemma returns_ret {A} (a : A) h (Q : A → heap → Prop) : Q a h → returns (ret a) h Q.
Proof. intros HQ. exists a, h. done. Qed.

Lemma returns_bind {A B} (m : M A) (k : A → M B) h (Q : B → heap → Prop) :
  returns m h (λ a h', returns (k a) h' Q) → returns (bind m k) h Q.
Proof.
  intros (a & h' & Hm & b & h'' & Hk & HQ).
  exists b, h''. unfold bind. rewrite Hm. done.
Qed.

Lemma returns_mono {A} (m : M A) h (P Q : A → heap → Prop) :
  returns m h P → (∀ a h', P a h' → Q a h') → returns m h Q.
Proof. intros (a & h' & Hm & HP) HPQ. exists a, h'. eauto. Qed.

Lemma fresh_unallocated (h : heap) : h !! fresh (dom h) = None.
Proof. apply not_elem_of_dom, is_fresh. Qed.

Lemma returns_alloc c h :
  returns (alloc c) h (λ l h', h !! l = None ∧ h' = <[l := c]> h).
Proof. eexists _, _. split; [reflexivity|]. split; [apply fresh_unallocated|done]. Qed.

Lemma returns_load l c h :
  h !! l = Some c → returns (load l) h (λ c' h', c' = c ∧ h' = h).
Proof. intros Hl. exists c, h. unfold load. by rewrite Hl. Qed.

Lemma returns_store l c c0 h :
  h !! l = Some c0 → returns (store l c) h (λ _ h', h' = <[l := c]> h).
Proof. intros Hl. exists (), (<[l := c]> h). unfold store. by rewrite Hl. Qed.

Lemma returns_get_prop l k o h :
  h !! l = Some (Obj o) →
  returns (get_prop l k) h (λ v h', v = default VUndefined (o !! k) ∧ h' = h).
Proof.
  intros Hl. apply returns_bind.
  eapply returns_mono; [by apply returns_load|].
  intros ? ? [-> ->]. by apply returns_ret.
Qed.

Lemma returns_set_prop l k v o h :
  h !! l = Some (Obj o) →
  returns (set_prop l k v) h (λ _ h', h' = <[l := Obj (<[k := v]> o)]> h).
Proof.
  intros Hl. apply returns_bind.
  eapply returns_mono; [by apply returns_load|].
  intros ? ? [-> ->]. by eapply returns_store.
Qed.

Lemma returns_spread l o h :
  h !! l = Some (Obj o) →
  returns (spread l) h (λ l' h', h !! l' = None ∧ h' = <[l' := Obj o]> h).
Proof.
  intros Hl. apply returns_bind.
  eapply returns_mono; [by apply returns_load|].
  intros ? ? [-> ->]. apply returns_alloc.
Qed.

(** *** Arrays *)


Lemma returns_Array_new `{ArrayOf A} (l : list A) h :
  returns (Array_new l) h (fresh_array h l).
Proof. apply returns_alloc. Qed.

Section arrays.
Context `{ArrayOf A}.

Lemma returns_Array_read a (l : list A) h :
  h !! a = Some (to_cell l) →
  returns (Array_read a) h (λ l' h', l' = l ∧ h' = h).
Proof.
  intros Ha. apply returns_bind.
  eapply returns_mono; [by apply returns_load|].
  intros ? ? [-> ->]. rewrite of_to_cell. by apply returns_ret.
Qed.

Lemma returns_Array_filter f a (l : list A) h :
  h !! a = Some (to_cell l) →
  returns (Array_filter f a) h (fresh_array h (filter (λ x, f x) l)).
Proof.
  intros Ha. apply returns_bind.
  eapply returns_mono; [by apply returns_Array_read|].
  intros ? ? [-> ->]. apply returns_Array_new.
Qed.

Lemma returns_Array_slice s e a (l : list A) h :
  h !! a = Some (to_cell l) →
  returns (Array_slice (A:=A) s e a) h (fresh_array h (Array_slice_list s e l)).
Proof.
  intros Ha. apply returns_bind.
  eapply returns_mono; [by apply returns_Array_read|].
  intros ? ? [-> ->]. apply returns_Array_new.
Qed.

Lemma returns_Array_map `{ArrayOf B} (f : A → B) a (l : list A) h :
  h !! a = Some (to_cell l) →
  returns (Array_map f a) h (fresh_array h (f <$> l)).
Proof.
  intros Ha. apply returns_bind.
  eapply returns_mono; [by apply returns_Array_read|].
  intros ? ? [-> ->]. apply returns_Array_new.
Qed.

Lemma returns_Array_sort cmp a (l : list A) h :
  h !! a = Some (to_cell l) →
  returns (Array_sort cmp a) h
    (λ r h', r = a ∧ h' = <[a := to_cell (Array_sort_list cmp l)]> h).
Proof.
  intros Ha. apply returns_bind.
  eapply returns_mono; [by apply returns_Array_read|].
  intros ? ? [-> ->]. apply returns_bind.
  eapply returns_mono; [by eapply returns_store|].
  intros ? ? ->. by apply returns_ret.
Qed.

Lemma returns_Array_find f a (l : list A) h :
  h !! a = Some (to_cell l) →
  returns (Array_find f a) h (λ r h', r = find (λ x, f x) l ∧ h' = h).
Proof.
  intros Ha. apply returns_bind.
  eapply returns_mono; [by apply returns_Array_read|].
  intros ? ? [-> ->]. by apply returns_ret.
Qed.

Lemma returns_Array_length a (l : list A) h :
  h !! a = Some (to_cell l) →
  returns (Array_length (A:=A) a) h (λ n h', n = Z.of_nat (length l) ∧ h' = h).
Proof.
  intros Ha. apply returns_bind.
  eapply returns_mono; [by apply returns_Array_read|].
  intros ? ? [-> ->]. by apply returns_ret.
Qed.

Lemma returns_Array_push a x (l : list A) h :
  h !! a = Some (to_cell l) →
  returns (Array_push a x) h (λ _ h', h' = <[a := to_cell (l ++ [x])]> h).
Proof.
  intros Ha. apply returns_bind.
  eapply returns_mono; [by apply returns_Array_read|].
  intros ? ? [-> ->]. by eapply returns_store.
Qed.

End arrays.

(** * Sorting *)

Section sort_by_key.
Context {A : Type} (cmp : A → A → number) (key : A → Z).


Lemma descending_on_incl l l' : l' ⊆ l → descending_on cmp key l → descending_on cmp key l'.
Proof. intros Hi Hd x y Hx Hy. apply Hd; auto. Qed.

Lemma sort_insert_Permutation x l : sort_insert cmp x l ≡ₚ x :: l.
Proof.
  induction l as [|y l IH]; simpl; [done|].
  destruct (gt0 (cmp x y)); [|done].
  rewrite IH. apply Permutation_swap.
Qed.

Lemma Array_sort_list_Permutation l : Array_sort_list cmp l ≡ₚ l.
Proof.
  induction l as [|x l IH]; simpl; [done|].
  by rewrite sort_insert_Permutation, IH.
Qed.

Lemma sort_insert_sorted x l :
  descending_on cmp key (x :: l) →
  StronglySorted (key_ge key) l → StronglySorted (key_ge key) (sort_insert cmp x l).
Proof.
  induction l as [|y l IH]; intros Hd Hs; simpl.
  - repeat constructor.
  - apply StronglySorted_inv in Hs as [Hs Hy].
    assert (Hxy : gt0 (cmp x y) = true ↔ (key x < key y)%Z)
      by (apply Hd; set_solver).
    destruct (gt0 (cmp x y)).
    + assert (key x < key y)%Z by by apply Hxy.
      constructor.
      * apply IH; [|done]. eapply descending_on_incl; [|done].
        intros z; rewrite !elem_of_cons; tauto.
      * rewrite sort_insert_Permutation. constructor; [|done].
        unfold key_ge. lia.
    + assert (key y ≤ key x)%Z.
      { destruct (decide (key x < key y)%Z) as [Hlt|]; [|lia].
        apply Hxy in Hlt. done. }
      constructor; [by constructor|].
      constructor; [done|].
      eapply Forall_impl; [done|]. unfold key_ge. intros; simpl in *; lia.
Qed.

Lemma Array_sort_list_sorted l :
  descending_on cmp key l → StronglySorted (key_ge key) (Array_sort_list cmp l).
Proof.
  induction l as [|x l IH]; intros Hd; simpl; [constructor|].
  apply sort_insert_sorted.
  - intros a b Ha Hb. apply Hd.
    + by rewrite <- (Array_sort_list_Permutation l).
    + by rewrite <- (Array_sort_list_Permutation l).
  - apply IH. eapply descending_on_incl; [|done].
        intros z; rewrite !elem_of_cons; tauto.
Qed.

(** Stability: the elements of one key keep their order. *)
Lemma sort_insert_stable x l k :
  descending_on cmp key (x :: l) →
  filter (λ y, key y = k) (sort_insert cmp x l) = filter (λ y, key y = k) (x :: l).
Proof.
  induction l as [|y l IH]; intros Hd; simpl; [done|].
  assert (Hxy : gt0 (cmp x y) = true ↔ (key x < key y)%Z)
    by (apply Hd; set_solver).
  destruct (gt0 (cmp x y)); [|done].
  assert (key x < key y)%Z by by apply Hxy.
  rewrite filter_cons, IH, !filter_cons.
  - repeat case_decide; try done; lia.
  - eapply descending_on_incl; [|done].
        intros z; rewrite !elem_of_cons; tauto.
Qed.

Lemma Array_sort_list_stable l k :
  descending_on cmp key l →
  filter (λ y, key y = k) (Array_sort_list cmp l) = filter (λ y, key y = k) l.
Proof.
  induction l as [|x l IH]; intros Hd; simpl; [done|].
  rewrite sort_insert_stable.
  - rewrite !filter_cons, IH; [done|].
    eapply descending_on_incl; [|done].
        intros z; rewrite !elem_of_cons; tauto.
  - intros a b Ha Hb. apply Hd.
    + by rewrite <- (Array_sort_list_Permutation l).
    + by rewrite <- (Array_sort_list_Permutation l).
Qed.

End sort_by_key.



(** * [BlogPostManager] *)

Lemma Array_slice_list_nil {A} s e : Array_slice_list (A:=A) s e [] = [].
Proof. unfold Array_slice_list. by rewrite drop_nil, take_nil. Qed.

Lemma Array_slice_list_take {A} (n : Z) (l : list A) :
  (0 ≤ n)%Z → Array_slice_list 0 n l = take (Z.to_nat n) l.
Proof.
  intros Hn. unfold Array_slice_list. simpl.
  destruct (Z.ltb_spec n 0) as [|_]; [exfalso; lia|].
  rewrite (Z.min_l 0) by lia. simpl. rewrite drop_0, Z.sub_0_r.
  destruct (decide (n ≤ Z.of_nat (length l))%Z).
  - f_equal. lia.
  - rewrite !take_ge; [done|lia..].
Qed.

Lemma fresh_array_lookup `{ArrayOf A} h (l : list A) r h' :
  fresh_array h l r h' → h' !! r = Some (to_cell l).
Proof. intros [_ ->]. apply lookup_insert_eq. Qed.

Lemma fresh_array_subseteq `{ArrayOf A} h (l : list A) r h' :
  fresh_array h l r h' → h ⊆ h'.
Proof. intros [Hr ->]. by apply insert_subseteq. Qed.

Lemma includes_empty s : includes s "" = true.
Proof. by destruct s. Qed.

(** [findRelatedPosts] runs to the end from every heap in which the manager
    holds an array; it returns a new array with [related_list] of the list
    held, and changes no cell that existed. *)
Lemma findRelatedPosts_run h this l currentPost limit :
  h !! posts this = Some (PostArr l) →
  returns (findRelatedPosts this currentPost limit) h
    (λ r h', h !! r = None ∧ h ⊆ h'
             ∧ h' !! r = Some (RelArr (related_list l currentPost limit))).
Proof.
  intros Hl. unfold findRelatedPosts.
  apply returns_bind.
  eapply returns_mono; [by apply (returns_Array_filter (A:=Post))|].
  intros a1 h1 H1. apply returns_bind.
  eapply returns_mono;
    [eapply (returns_Array_map (A:=Post) (B:=RelatedPost));
     by eapply fresh_array_lookup|].
  intros a2 h2 H2. apply returns_bind.
  eapply returns_mono;
    [eapply (returns_Array_filter (A:=RelatedPost)); by eapply fresh_array_lookup|].
  intros a3 h3 H3. apply returns_bind.
  eapply returns_mono;
    [eapply (returns_Array_sort (A:=RelatedPost)); by eapply fresh_array_lookup|].
  intros ? h4 [-> H4].
  eapply returns_mono;
    [eapply (returns_Array_slice (A:=RelatedPost));
     rewrite H4; apply lookup_insert_eq|].
  intros r h5 [Hr H5].
  assert (h ⊆ h4) as Hsub.
  { etrans; [exact (fresh_array_subseteq _ _ _ _ H1)|].
    etrans; [exact (fresh_array_subseteq _ _ _ _ H2)|].
    destruct H3 as [Hfresh ->]. rewrite H4, insert_insert_eq.
    by apply insert_subseteq. }
  split; [by eapply lookup_weaken_None|].
  split; [etrans; [done|]; rewrite H5; by apply insert_subseteq|].
  rewrite H5. apply lookup_insert_eq.
Qed.

Lemma filter_all {A} (P : A → Prop) `{∀ x, Decision (P x)} (l : list A) :
  (∀ x, x ∈ l → P x) → filter P l = l.
Proof.
  induction l as [|x l IH]; intros HP; [done|].
  rewrite filter_cons_True by (apply HP; left).
  f_equal. apply IH. intros y Hy. apply HP. by right.
Qed.

Lemma filter_none {A} (P : A → Prop) `{∀ x, Decision (P x)} (l : list A) :
  (∀ x, x ∈ l → ¬ P x) → filter P l = [].
Proof.
  induction l as [|x l IH]; intros HP; [done|].
  rewrite filter_cons_False by (apply HP; left).
  apply IH. intros y Hy. apply HP. by right.
Qed.

(** With no tag on the reference, every candidate scores [0 / 0]. *)
Lemma score_untagged p : relevanceScore (score [] p) = NaN.
Proof.
  unfold score; simpl. rewrite filter_none; [done|]. by intros x _ ?.
Qed.

Lemma related_list_untagged l currentPost limit :
  tags (data currentPost) = [] → related_list l currentPost limit = [].
Proof.
  intros Ht. unfold related_list, ranked_list. rewrite Ht.
  rewrite (filter_none _ (score [] <$> _)); [simpl; apply Array_slice_list_nil|].
  intros x Hx. apply list_elem_of_fmap in Hx as (p & -> & _).
  rewrite score_untagged. by intros ?.
Qed.

(** C2. When the reference post has an empty tag list, [findRelatedPosts]
    returns normally, for every list held and every limit, and the array it
    returns is empty: the quotient [0 / 0] of every candidate is not above
    zero, so no entry, and no such score, reaches the result. *)
Theorem findRelatedPosts_untagged_reference h this l currentPost limit :
  h !! posts this = Some (PostArr l) →
  tags (data currentPost) = [] →
  returns (findRelatedPosts this currentPost limit) h
    (λ r h', h' !! r = Some (RelArr [])).
Proof.
  intros Hl Ht.
  eapply returns_mono; [by apply findRelatedPosts_run|].
  intros r h' (_ & _ & Hr). by rewrite related_list_untagged in Hr.
Qed.

Lemma findRelatedPosts_untagged_reference_witness :
  Sample.heap_of [Sample.pa; Sample.pab; Sample.pc] !! posts Sample.manager
    = Some (PostArr [Sample.pa; Sample.pab; Sample.pc])
  ∧ tags (data Sample.untagged) = []
  ∧ returns (findRelatedPosts Sample.manager Sample.untagged (Some 7%Z))
      (Sample.heap_of [Sample.pa; Sample.pab; Sample.pc])
      (λ r h', h' !! r = Some (RelArr [])).
Proof.
  split; [reflexivity|]. split; [reflexivity|].
  apply (findRelatedPosts_untagged_reference _ _
           [Sample.pa; Sample.pab; Sample.pc]); reflexivity.
Defined.

(** C8. [getRecentPosts(n)] returns normally with a new array that holds
    nothing when [n = 0], the whole list held when [n] is at least its
    length, and, for every [n ≥ 0], its first [n] posts. *)
Theorem getRecentPosts_prefix h this l (n : Z) :
  h !! posts this = Some (PostArr l) →
  returns (getRecentPosts this (Some n)) h
    (λ r h', ∃ res, h' !! r = Some (PostArr res)
       ∧ (n = 0%Z → res = [])
       ∧ ((Z.of_nat (length l) ≤ n)%Z → res = l)
       ∧ ((0 ≤ n)%Z → res = take (Z.to_nat n) l)).
Proof.
  intros Hl. unfold getRecentPosts.
  eapply returns_mono; [by apply (returns_Array_slice (A:=Post))|].
  intros r h' Hr. eexists. split; [exact (fresh_array_lookup _ _ _ _ Hr)|]. simpl.
  repeat split.
  - intros ->. by rewrite Array_slice_list_take.
  - intros Hn. rewrite Array_slice_list_take by lia. apply take_ge. lia.
  - apply Array_slice_list_take.
Qed.

Lemma getRecentPosts_prefix_witness :
  Sample.heap_of [Sample.pa; Sample.pab; Sample.pc] !! posts Sample.manager
    = Some (PostArr [Sample.pa; Sample.pab; Sample.pc])
  ∧ returns (getRecentPosts Sample.manager (Some 2%Z))
      (Sample.heap_of [Sample.pa; Sample.pab; Sample.pc])
      (λ r h', ∃ res, h' !! r = Some (PostArr res)
         ∧ (2%Z = 0%Z → res = [])
         ∧ ((Z.of_nat 3 ≤ 2)%Z → res = [Sample.pa; Sample.pab; Sample.pc])
         ∧ ((0 ≤ 2)%Z → res = [Sample.pa; Sample.pab])).
Proof.
  split; [reflexivity|].
  apply (getRecentPosts_prefix _ _ [Sample.pa; Sample.pab; Sample.pc] 2).
  reflexivity.
Defined.

(** C9. When lower-casing maps the empty string to itself, the empty string
    occurs in every lower-cased title, description and tag, and
    [searchPosts("")] returns normally with a new array holding every post
    held, in the order held. *)
Theorem searchPosts_empty_keyword (toLowerCase : string → string) h this l :
  toLowerCase "" = "" →
  h !! posts this = Some (PostArr l) →
  (∀ s, includes (toLowerCase s) (toLowerCase "") = true)
  ∧ returns (searchPosts toLowerCase this "") h
      (λ r h', h' !! r = Some (PostArr l)).
Proof.
  intros He Hl.
  assert (Hall : ∀ s, includes (toLowerCase s) (toLowerCase "") = true).
  { intros s. rewrite He. apply includes_empty. }
  split; [done|]. unfold searchPosts.
  eapply returns_mono; [by apply (returns_Array_filter (A:=Post))|].
  intros r h' Hr. apply fresh_array_lookup in Hr. rewrite Hr. simpl.
  do 2 f_equal. apply filter_all. intros p _. by rewrite Hall.
Qed.

Lemma searchPosts_empty_keyword_witness :
  Sample.lower "" = ""
  ∧ Sample.heap_of [Sample.pa; Sample.pab; Sample.pc] !! posts Sample.manager
    = Some (PostArr [Sample.pa; Sample.pab; Sample.pc])
  ∧ (∀ s, includes (Sample.lower s) (Sample.lower "") = true)
  ∧ returns (searchPosts Sample.lower Sample.manager "")
      (Sample.heap_of [Sample.pa; Sample.pab; Sample.pc])
      (λ r h', h' !! r = Some (PostArr [Sample.pa; Sample.pab; Sample.pc])).
Proof.
  split; [reflexivity|]. split; [reflexivity|].
  apply (searchPosts_empty_keyword Sample.lower _ _
           [Sample.pa; Sample.pab; Sample.pc]); reflexivity.
Defined.

(** ** Scores *)



Lemma gt0_Fin q : gt0 (Fin q) = true ↔ (0 < q)%Q.
Proof.
  simpl. rewrite negb_true_iff, <- not_true_iff_false, Qle_bool_iff.
  split; [apply Qnot_le_lt | apply Qlt_not_le].
Qed.



Lemma Array_includes_elem_of l x : Array_includes l x ↔ x ∈ l.
Proof.
  unfold Array_includes. rewrite existb_True, Exists_exists.
  split.
  - intros (y & Hy & He). apply Is_true_true, String.eqb_eq in He. by subst.
  - intros Hx. exists x. split; [done|]. apply Is_true_true, String.eqb_refl.
Qed.

(** The array [commonTags] of the code holds the intersection of the two
    tag lists, as lists: the candidate's tags that occur among the
    reference's. *)
Lemma filter_includes_intersection (ts cur : list string) :
  filter (λ t, Array_includes cur t) ts = list_intersection ts cur.
Proof.
  induction ts as [|t ts IH]; [done|].
  rewrite filter_cons. simpl. rewrite IH.
  destruct (decide_rel elem_of t cur) as [Hin|Hin];
    case_decide as Hd; try done; rewrite Array_includes_elem_of in Hd; done.
Qed.

(** On tag lists without a repeated tag, that is the intersection of the two
    tag sets. *)
Lemma common_tags_set (c r : Post) :
  NoDup (tags (data c)) →
  length (common_tags c r)
  = size (list_to_set (C:=gset string) (tags (data c))
          ∩ list_to_set (tags (data r))).
Proof.
  intros Hnd. unfold common_tags.
  assert (Hnd' : NoDup (list_intersection (tags (data c)) (tags (data r)))).
  { rewrite <- filter_includes_intersection. by apply NoDup_filter. }
  rewrite <- (size_list_to_set (C:=gset string) _ Hnd').
  f_equal. apply set_eq. intros x.
  rewrite elem_of_intersection, !elem_of_list_to_set.
  apply list_elem_of_intersection.
Qed.

Lemma common_tags_le (c r : Post) :
  NoDup (tags (data c)) → length (common_tags c r) ≤ length (tags (data r)).
Proof.
  intros Hnd. unfold common_tags.
  apply submseteq_length, NoDup_submseteq.
  - rewrite <- filter_includes_intersection. by apply NoDup_filter.
  - intros x Hx. by apply list_elem_of_intersection in Hx as [_ ?].
Qed.

(** The score the code computes is the score of the specification. *)
Lemma score_spec_score (reference p : Post) t ts :
  tags (data reference) = t :: ts →
  relevanceScore (score (tags (data reference)) p) = spec_score p reference.
Proof.
  intros Ht. unfold score, spec_score, common_tags. simpl.
  rewrite filter_includes_intersection, Ht. done.
Qed.



(** ** The ranking *)





Section ranking.
Context (l : list Post) (reference : Post) (t : string) (ts : list string).
Hypothesis reference_tagged : tags (data reference) = t :: ts.

Let candidates : list Post :=
  filter (λ post : Post, negb (String.eqb (id post) (id reference))) l.
Let relevant : list RelatedPost :=
  filter (λ item : RelatedPost, gt0 (relevanceScore item))
    (score (tags (data reference)) <$> candidates).





End ranking.




Lemma Array_slice_list_subseteq {A} s e (l : list A) : Array_slice_list s e l ⊆ l.
Proof.
  unfold Array_slice_list. etrans; [apply subseteq_take|apply subseteq_drop].
Qed.

Lemma related_list_scores l currentPost limit x :
  x ∈ related_list l currentPost limit →
  ∃ q, relevanceScore x = Fin q ∧ (0 < q)%Q
       ∧ (NoDup (tags (data (post x))) → in_unit_range (relevanceScore x)).
Proof.
  intros Hx. apply Array_slice_list_subseteq in Hx. unfold ranked_list in Hx.
  rewrite Array_sort_list_Permutation in Hx.
  apply list_elem_of_filter in Hx as [Hpos Hx].
  apply list_elem_of_fmap in Hx as (p & -> & _).
  apply Is_true_true in Hpos.
  destruct (tags (data currentPost)) as [|t ts] eqn:Ht.
  { by rewrite score_untagged in Hpos. }
  rewrite <- Ht in *. erewrite score_spec_score in * by done.
  unfold spec_score in *. eexists. split; [done|].
  apply gt0_Fin in Hpos as Hq. split; [done|].
  intros Hnd. eexists. split; [done|]. split; [by apply Qlt_le_weak|].
  apply (common_tags_le _ currentPost) in Hnd.
  rewrite Qred_correct. unfold Qle; simpl. rewrite Ht in *. simpl in *. lia.
Qed.

(** C3. Every entry of the array [findRelatedPosts] returns, for every list
    held, reference and limit, carries a finite score above zero; the score
    is in the closed range from 0 to 1 when the tag list of the entry's post
    repeats no tag. *)
Theorem findRelatedPosts_score_range h this l currentPost limit :
  h !! posts this = Some (PostArr l) →
  returns (findRelatedPosts this currentPost limit) h
    (λ r h', ∃ result, h' !! r = Some (RelArr result) ∧
       Forall (λ x, ∃ q, relevanceScore x = Fin q ∧ (0 < q)%Q
                 ∧ (NoDup (tags (data (post x))) → in_unit_range (relevanceScore x)))
         result).
Proof.
  intros Hl.
  eapply returns_mono; [by apply findRelatedPosts_run|].
  intros r h' (_ & _ & Hr). eexists. split; [done|].
  apply Forall_forall. intros x. apply related_list_scores.
Qed.

Lemma findRelatedPosts_score_range_witness :
  Sample.heap_of [Sample.pa; Sample.pab; Sample.pc] !! posts Sample.manager
    = Some (PostArr [Sample.pa; Sample.pab; Sample.pc])
  ∧ returns (findRelatedPosts Sample.manager Sample.reference None)
      (Sample.heap_of [Sample.pa; Sample.pab; Sample.pc])
      (λ r h', ∃ result, h' !! r = Some (RelArr result) ∧
         Forall (λ x, ∃ q, relevanceScore x = Fin q ∧ (0 < q)%Q
                   ∧ (NoDup (tags (data (post x)))
                      → in_unit_range (relevanceScore x)))
           result).
Proof.
  split; [reflexivity|].
  apply (findRelatedPosts_score_range _ _ [Sample.pa; Sample.pab; Sample.pc]).
  reflexivity.
Defined.

(** A candidate that carries the tag of the reference twice scores 2. *)
Lemma findRelatedPosts_score_above_one :
  returns (findRelatedPosts Sample.manager Sample.single None)
    (Sample.heap_of [Sample.repeated])
    (λ r h', h' !! r
             = Some (RelArr [{| post := Sample.repeated; relevanceScore := Fin 2 |}]))
  ∧ ¬ in_unit_range (Fin 2).
Proof.
  split.
  - eapply returns_mono; [by apply findRelatedPosts_run|].
    intros r h' (_ & _ & ->). reflexivity.
  - intros (q & Hq & _ & Hle). injection Hq as <-. by apply Hle.
Qed.




(** ** Reading time *)

Lemma split_spaces_from_length in_run acc s :
  1 ≤ length (split_spaces_from in_run acc s).
Proof.
  revert in_run acc. induction s as [|c s IH]; intros in_run acc; simpl; [lia|].
  destruct (is_space c); [destruct in_run|]; simpl; auto with lia.
Qed.

Lemma trimStart_spaces s : forallb is_space s = true → trimStart s = [].
Proof.
  induction s as [|c s IH]; simpl; [done|].
  intros Hcs. apply andb_true_iff in Hcs as [Hc Hs]. rewrite Hc. auto.
Qed.

Lemma trim_spaces s : forallb is_space s = true → trim s = [].
Proof.
  intros Hs. unfold trim, trimEnd. rewrite (trimStart_spaces s) by done. reflexivity.
Qed.

Lemma ceil_div_bounds n d :
  (0 < d)%Z → (d * (ceil_div n d - 1) < n ≤ d * ceil_div n d)%Z.
Proof.
  intros Hd. unfold ceil_div.
  pose proof (Z.mul_div_le (- n) d Hd).
  pose proof (Z.mul_succ_div_gt (- n) d Hd).
  lia.
Qed.

(** C10. For every content, [calculateReadingTime] reports at least one
    word, and as minutes the least integer [m] with [words ≤ 200 m], which is
    at least 1; for content that is empty or all white space it reports one
    word and one minute. *)
Theorem calculateReadingTime_bounds (content : ustring) :
  (1 ≤ words (calculateReadingTime content))%Z
  ∧ (1 ≤ minutes (calculateReadingTime content))%Z
  ∧ (200 * (minutes (calculateReadingTime content) - 1)
       < words (calculateReadingTime content)
       ≤ 200 * minutes (calculateReadingTime content))%Z
  ∧ (forallb is_space content = true →
       words (calculateReadingTime content) = 1%Z
       ∧ minutes (calculateReadingTime content) = 1%Z).
Proof.
  unfold calculateReadingTime; simpl.
  pose proof (split_spaces_from_length false [] (trim content)) as Hw.
  fold (split_spaces (trim content)) in Hw.
  pose proof (ceil_div_bounds
                (Z.of_nat (length (split_spaces (trim content)))) 200) as Hm.
  split; [lia|]. split; [lia|]. split; [lia|].
  intros Hs. rewrite trim_spaces by done. done.
Qed.

Lemma calculateReadingTime_bounds_witness :
  forallb is_space [32; 9; 160; 10]%N = true
  ∧ words (calculateReadingTime [32; 9; 160; 10]%N) = 1%Z
  ∧ minutes (calculateReadingTime [32; 9; 160; 10]%N) = 1%Z.
Proof.
  split; [reflexivity|].
  apply (calculateReadingTime_bounds [32; 9; 160; 10]%N). reflexivity.
Defined.

(** ** The array the manager holds *)

Lemma Map_get_elem_of {V} (m : list (Z * V)) k v :
  Map_get m k = Some v → (k, v) ∈ m.
Proof.
  unfold Map_get. destruct (find _ m) as [[k' v']|] eqn:Hf; [|done].
  intros [= <-]. apply find_some in Hf as [Hin Hk].
  apply bool_decide_eq_true in Hk. simpl in Hk. subst.
  by apply list_elem_of_In.
Qed.

Lemma Map_set_elem_of {V} (m : list (Z * V)) k v kv :
  kv ∈ Map_set m k v → kv ∈ m ∨ kv = (k, v).
Proof.
  induction m as [|[k' v'] m IH]; simpl.
  - intros Hin. apply list_elem_of_singleton in Hin. by right.
  - case_bool_decide.
    + intros [->|Hin]%elem_of_cons; [by right|]. left. by right.
    + intros [->|Hin]%elem_of_cons; [left; by left|].
      destruct (IH Hin) as [?|?]; [left; by right|by right].
Qed.

Lemma forEach_group getFullYear h0 (l : list Post) m h :
  groups_fresh h0 h m →
  returns
    (forEach
       (λ (groupedPosts : list (Z * loc)) (post : Post),
          let year := getFullYear (pubDatetime (data post)) in
          let! yearPosts :=
            match Map_get groupedPosts year with
            | Some a => ret a
            | None => Array_new (A:=Post) []
            end in
          Array_push yearPosts post;;;
          ret (Map_set groupedPosts year yearPosts))
       l m) h
    (λ _ h', h0 ⊆ h').
Proof.
  revert m h. induction l as [|p l IH]; intros m h [Hsub Hm]; simpl.
  { by apply returns_ret. }
  apply returns_bind.
  set (year := getFullYear (pubDatetime (data p))).
  assert (Hstep : ∀ a ps h1,
            h0 ⊆ h1 → h0 !! a = None → h1 !! a = Some (PostArr ps) →
            (∀ k b, (k, b) ∈ m → ∃ qs, h1 !! b = Some (PostArr qs)) →
            groups_fresh h0 (<[a := PostArr (ps ++ [p])]> h1) (Map_set m year a)).
  { intros a ps h1 Hsub1 Ha0 Ha1 Hm1. split; [by apply insert_subseteq_r|].
    intros k b Hin. apply Map_set_elem_of in Hin as [Hin|[= -> ->]].
    - split; [by apply (Hm k)|].
      destruct (decide (a = b)) as [->|Hne].
      + rewrite lookup_insert_eq. eauto.
      + rewrite lookup_insert_ne by done. eauto.
    - split; [done|]. rewrite lookup_insert_eq. eauto. }
  apply returns_bind.
  destruct (Map_get m year) as [a|] eqn:Hget.
  - apply returns_ret. apply Map_get_elem_of, Hm in Hget as [Ha0 [ps Ha]].
    apply returns_bind.
    eapply returns_mono; [by apply (returns_Array_push (A:=Post))|].
    intros _ h1 ->. apply returns_ret. apply IH.
    apply Hstep; [done..|]. intros k b Hin. by apply (Hm k).
  - eapply returns_mono; [apply (returns_Array_new (A:=Post))|].
    intros a h1 [Ha ->]. apply returns_bind.
    eapply returns_mono;
      [apply (returns_Array_push (A:=Post) _ _ []); apply lookup_insert_eq|].
    intros _ h2 ->. apply returns_ret. apply IH.
    rewrite insert_insert_eq.
    replace (<[a:=to_cell ([] ++ [p])]> h)
      with (<[a:=PostArr ([] ++ [p])]> (<[a:=PostArr []]> h))
      by apply insert_insert_eq.
    apply Hstep.
    + etrans; [done|]. by apply insert_subseteq.
    + by eapply lookup_weaken_None.
    + apply lookup_insert_eq.
    + intros k b Hin. destruct (Hm k b Hin) as [_ [qs Hb]].
      exists qs. rewrite lookup_insert_ne; [done|]. intros ->. congruence.
Qed.

(** No call changes a cell that existed: every call only allocates, and
    overwrites only what it allocated. *)
Lemma run_query_extends toLowerCase getFullYear this s q h :
  h !! posts this = Some (PostArr s) →
  returns (run_query toLowerCase getFullYear this q) h (λ _ h', h ⊆ h').
Proof.
  intros Hs.
  destruct q; simpl; apply returns_bind.
  - eapply returns_mono; [by apply (returns_Array_filter (A:=Post))|].
    intros a h' Ha. apply returns_ret. exact (fresh_array_subseteq _ _ _ _ Ha).
  - eapply returns_mono; [by apply (returns_Array_filter (A:=Post))|].
    intros a h' Ha. apply returns_ret. exact (fresh_array_subseteq _ _ _ _ Ha).
  - eapply returns_mono; [by apply (returns_Array_filter (A:=Post))|].
    intros a h' Ha. apply returns_ret. exact (fresh_array_subseteq _ _ _ _ Ha).
  - eapply returns_mono; [by apply (returns_Array_slice (A:=Post))|].
    intros a h' Ha. apply returns_ret. exact (fresh_array_subseteq _ _ _ _ Ha).
  - eapply returns_mono; [by apply (returns_Array_find (A:=Post))|].
    intros a h' [_ ->]. by apply returns_ret.
  - eapply returns_mono; [by apply (returns_Array_filter (A:=Post))|].
    intros a h' Ha. apply returns_ret. exact (fresh_array_subseteq _ _ _ _ Ha).
  - unfold groupPostsByYear. apply returns_bind.
    eapply returns_mono; [by apply (returns_Array_read (A:=Post))|].
    intros ? ? [-> ->].
    eapply returns_mono; [apply (forEach_group getFullYear h)|].
    + split; [done|]. intros k a Hin. by apply elem_of_nil in Hin.
    + intros g h' Hsub. by apply returns_ret.
  - eapply returns_mono; [by apply (returns_Array_length (A:=Post))|].
    intros a h' [_ ->]. by apply returns_ret.
  - eapply returns_mono; [by apply findRelatedPosts_run|].
    intros a h' (_ & Hsub & _). by apply returns_ret.
  - apply returns_ret. by apply returns_ret.
Qed.

Lemma run_queries_extends toLowerCase getFullYear this s qs h :
  h !! posts this = Some (PostArr s) →
  returns (run_queries toLowerCase getFullYear this qs) h (λ _ h', h ⊆ h').
Proof.
  revert h. induction qs as [|q qs IH]; intros h Hs; simpl.
  { by apply returns_ret. }
  apply returns_bind.
  eapply returns_mono; [by eapply run_query_extends|].
  intros a h1 Hsub1. simpl in Hsub1. apply returns_bind.
  eapply returns_mono; [apply IH; by eapply lookup_weaken|].
  intros answers h2 Hsub2. simpl in Hsub2. apply returns_ret.
  by trans h1.
Qed.

Lemma by_date_descending (l : list Post) :
  descending_on
    (λ a b : Post, of_Z (pubDatetime (data b) - pubDatetime (data a)))
    (λ p, pubDatetime (data p)) l.
Proof.
  intros x y _ _. unfold of_Z. rewrite gt0_Fin.
  unfold Qlt; simpl. lia.
Qed.

(** C7. From an array of posts, the constructor returns a manager that holds
    a new array (the array given is left as it was) with the same posts, in
    non-increasing order of publish timestamp, posts of one timestamp in the
    order they had in the array given; and after every sequence of calls of
    its methods (by tag, by author, featured, recent, by id, search, group by
    year, count, and also related posts and all posts), each of which returns
    normally, the array held is the same list. *)
Theorem manager_sorted_and_read_only
    (toLowerCase : string → string) (getFullYear : Z → Z) h input l :
  h !! input = Some (PostArr l) →
  returns (new_BlogPostManager input) h
    (λ this h1, ∃ s,
       h1 !! posts this = Some (PostArr s)
       ∧ posts this ≠ input
       ∧ h1 !! input = Some (PostArr l)
       ∧ s ≡ₚ l
       ∧ StronglySorted
           (λ a b, (pubDatetime (data b) ≤ pubDatetime (data a))%Z) s
       ∧ (∀ t, filter (λ p, pubDatetime (data p) = t) s
               = filter (λ p, pubDatetime (data p) = t) l)
       ∧ ∀ qs, returns (run_queries toLowerCase getFullYear this qs) h1
                 (λ _ h2, h2 !! posts this = Some (PostArr s))).
Proof.
  intros Hl. unfold new_BlogPostManager, getSortedPosts.
  apply returns_bind, returns_bind.
  eapply returns_mono; [by apply (returns_Array_read (A:=Post))|].
  intros ? ? [-> ->].
  eapply returns_mono; [apply (returns_Array_new (A:=Post))|].
  intros a h1 [Ha ->]. apply returns_ret. simpl.
  eexists. split; [apply lookup_insert_eq|].
  assert (a ≠ input) by (intros ->; congruence).
  split; [done|]. split; [by rewrite lookup_insert_ne|].
  split; [apply Array_sort_list_Permutation|].
  split; [apply (Array_sort_list_sorted _ (λ p, pubDatetime (data p))),
            by_date_descending|].
  split.
  - intros t. apply (Array_sort_list_stable _ (λ p, pubDatetime (data p))),
      by_date_descending.
  - intros qs.
    eapply returns_mono;
      [eapply (run_queries_extends _ _ {| posts := a |}); apply lookup_insert_eq|].
    intros ? h2 Hsub. simpl in *. eapply lookup_weaken; [|done].
    apply lookup_insert_eq.
Qed.

Lemma manager_sorted_and_read_only_witness :
  Sample.heap_of [Sample.pc; Sample.pa; Sample.pab] !! Sample.arr
    = Some (PostArr [Sample.pc; Sample.pa; Sample.pab])
  ∧ returns (new_BlogPostManager Sample.arr)
      (Sample.heap_of [Sample.pc; Sample.pa; Sample.pab])
      (λ this h1, ∃ s,
         h1 !! posts this = Some (PostArr s)
         ∧ posts this ≠ Sample.arr
         ∧ h1 !! Sample.arr = Some (PostArr [Sample.pc; Sample.pa; Sample.pab])
         ∧ s ≡ₚ [Sample.pc; Sample.pa; Sample.pab]
         ∧ StronglySorted
             (λ a b, (pubDatetime (data b) ≤ pubDatetime (data a))%Z) s
         ∧ (∀ t, filter (λ p, pubDatetime (data p) = t) s
                 = filter (λ p, pubDatetime (data p) = t)
                     [Sample.pc; Sample.pa; Sample.pab])
         ∧ ∀ qs, returns (run_queries Sample.lower Sample.year this qs) h1
                   (λ _ h2, h2 !! posts this = Some (PostArr s))).
Proof.
  split; [reflexivity|].
  apply (manager_sorted_and_read_only Sample.lower Sample.year _ _
           [Sample.pc; Sample.pa; Sample.pab]).
  reflexivity.
Defined.

(** * [SEOMetadataBuilder] *)

Lemma truthy_false v : truthy v = false ↔ absent_or_empty v.
Proof.
  unfold absent_or_empty. destruct v as [|s|l]; simpl.
  - split; [by left|done].
  - rewrite negb_false_iff, String.eqb_eq.
    split; [intros ->; by right|]. intros [?|[= ->]]; done.
  - split; [done|]. intros [?|?]; done.
Qed.

Lemma builder_at_update h this m om om' :
  builder_at h this m om → builder_at (<[m := Obj om']> h) this m om'.
Proof.
  intros (Hne & (ob & Hb & Hm) & _). split; [done|]. split.
  - exists ob. by rewrite lookup_insert_ne.
  - apply lookup_insert_eq.
Qed.

Lemma builder_at_weaken h h' this m om :
  builder_at h this m om → h ⊆ h' → builder_at h' this m om.
Proof.
  intros (Hne & (ob & Hb & Hm) & Hom) Hsub. split; [done|]. split.
  - exists ob. split; [|done]. by eapply lookup_weaken.
  - by eapply lookup_weaken.
Qed.

Lemma builder_at_alloc h this m om l c :
  builder_at h this m om → h !! l = None → builder_at (<[l := c]> h) this m om.
Proof. intros Hb Hl. eapply builder_at_weaken; [done|]. by apply insert_subseteq. Qed.

Lemma returns_metadata_of h this m om :
  builder_at h this m om →
  returns (metadata_of this) h (λ r h', r = m ∧ h' = h).
Proof.
  intros (_ & (ob & Hb & Hm) & _). apply returns_bind.
  eapply returns_mono; [by apply returns_get_prop|].
  intros ? ? [-> ->]. rewrite Hm. by apply returns_ret.
Qed.

(** [this.metadata[k] = v; return this] *)
Lemma returns_set_field h this m om k v :
  builder_at h this m om →
  returns (let! m := metadata_of this in set_prop m k v;;; ret this) h
    (λ r h', r = this ∧ h' = <[m := Obj (<[k := v]> om)]> h).
Proof.
  intros Hb. apply returns_bind.
  eapply returns_mono; [by eapply returns_metadata_of|].
  intros ? ? [-> ->]. apply returns_bind.
  eapply returns_mono; [apply returns_set_prop, Hb|].
  intros ? ? ->. by apply returns_ret.
Qed.

Lemma returns_setBasicMetadata h this m om title description :
  builder_at h this m om →
  returns (setBasicMetadata this title description) h
    (λ r h', r = this
       ∧ h' = <[m := Obj (<["description" := VString description]>
                             (<["title" := VString title]> om))]> h).
Proof.
  intros Hb. unfold setBasicMetadata. apply returns_bind.
  eapply returns_mono; [by eapply returns_metadata_of|].
  intros ? ? [-> ->]. apply returns_bind.
  eapply returns_mono; [apply returns_set_prop, Hb|].
  intros ? h1 ->.
  eapply returns_mono; [eapply returns_set_field, builder_at_update, Hb|].
  intros ? ? [-> ->]. split; [done|]. apply insert_insert_eq.
Qed.

Lemma returns_new_SEOMetadataBuilder h :
  returns new_SEOMetadataBuilder h
    (λ b h', ∃ m, builder_at h' b m ∅ ∧ h !! b = None ∧ h !! m = None ∧ h ⊆ h').
Proof.
  unfold new_SEOMetadataBuilder. apply returns_bind.
  eapply returns_mono; [apply returns_alloc|].
  intros m h1 [Hm ->].
  eapply returns_mono; [apply returns_alloc|].
  intros b h2 [Hb ->]. exists m.
  assert (b ≠ m) by (intros ->; by rewrite lookup_insert_eq in Hb).
  split; [|split; [|split]].
  - split; [done|]. split.
    + eexists. split; [apply lookup_insert_eq|]. done.
    + rewrite lookup_insert_ne by done. apply lookup_insert_eq.
  - by rewrite lookup_insert_ne in Hb.
  - done.
  - etrans; [by apply insert_subseteq|]. by apply insert_subseteq.
Qed.

Lemma returns_reset h this m om :
  builder_at h this m om →
  returns (reset this) h
    (λ r h', r = this ∧ ∃ m' ob, h !! m' = None
       ∧ h' = <[this := Obj ob]> (<[m' := Obj ∅]> h)
       ∧ builder_at h' this m' ∅).
Proof.
  intros (Hne & (ob & Hb & Hm) & Hom). unfold reset.
  apply returns_bind.
  eapply returns_mono; [apply returns_alloc|].
  intros m' h1 [Hm' ->].
  assert (this ≠ m') by (intros ->; congruence).
  apply returns_bind.
  eapply returns_mono;
    [eapply returns_set_prop; rewrite lookup_insert_ne by done; exact Hb|].
  intros ? ? ->. apply returns_ret. split; [done|].
  eexists m', _. split; [done|]. split; [done|].
  split; [done|]. split.
  - eexists. split; [apply lookup_insert_eq|]. apply lookup_insert_eq.
  - rewrite lookup_insert_ne by done. apply lookup_insert_eq.
Qed.

(** A mutation of a builder overwrites the builder and its metadata
    object, and nothing else that existed. *)
Lemma mutate_frame h this m om μ :
  builder_at h this m om →
  returns (mutate this μ) h
    (λ _ h', ∀ l, l ≠ this → l ≠ m → is_Some (h !! l) → h' !! l = h !! l).
Proof.
  intros Hb.
  assert (Hfield : ∀ k v,
    returns ((let! m := metadata_of this in set_prop m k v;;; ret this);;; ret ()) h
      (λ _ h', ∀ l, l ≠ this → l ≠ m → is_Some (h !! l) → h' !! l = h !! l)).
  { intros k v. apply returns_bind.
    eapply returns_mono; [by eapply returns_set_field|].
    intros ? ? [-> ->]. apply returns_ret. intros l _ Hl _.
    by rewrite lookup_insert_ne. }
  destruct μ; simpl; try apply Hfield.
  - apply returns_bind.
    eapply returns_mono; [by eapply returns_setBasicMetadata|].
    intros ? ? [-> ->]. apply returns_ret. intros l _ Hl _.
    by rewrite lookup_insert_ne.
  - apply returns_bind.
    eapply returns_mono; [by eapply returns_reset|].
    intros ? ? (-> & m' & ob & Hm' & -> & _). apply returns_ret.
    intros l Hl _ [c Hc]. rewrite !lookup_insert_ne; [done| |done].
    intros ->. congruence.
  - apply returns_bind.
    eapply returns_mono; [by eapply returns_metadata_of|].
    intros ? ? [-> ->].
    eapply returns_mono; [apply returns_set_prop, Hb|].
    intros ? ? ->. intros l _ Hl _. by rewrite lookup_insert_ne.
Qed.

Lemma returns_clone h this m om :
  builder_at h this m om →
  returns (clone this) h
    (λ c h1, ∃ mc, builder_at h1 c mc om
       ∧ h !! c = None ∧ h !! mc = None ∧ h ⊆ h1).
Proof.
  intros Hb. unfold clone. apply returns_bind.
  eapply returns_mono; [apply returns_new_SEOMetadataBuilder|].
  intros c h0 (m0 & Hc & Hc0 & Hm0 & Hsub0).
  apply returns_bind.
  eapply returns_mono; [eapply returns_metadata_of, builder_at_weaken; done|].
  intros ? ? [-> ->]. apply returns_bind.
  eapply returns_mono; [eapply returns_spread, lookup_weaken; [apply Hb|done]|].
  intros mc h1 [Hmc ->].
  destruct Hc as (Hne & (ob & Hcell & Hfield) & Hm0cell).
  assert (c ≠ mc) by (intros ->; congruence).
  apply returns_bind.
  eapply returns_mono;
    [eapply returns_set_prop; rewrite lookup_insert_ne by done; exact Hcell|].
  intros ? ? ->. apply returns_ret. exists mc.
  split; [|split; [done|split]].
  - split; [done|]. split.
    + eexists. split; [apply lookup_insert_eq|]. apply lookup_insert_eq.
    + rewrite lookup_insert_ne by done. apply lookup_insert_eq.
  - by eapply lookup_weaken_None.
  - apply insert_subseteq_r; [done|]. etrans; [done|]. by apply insert_subseteq.
Qed.

Lemma observe_builder h this m om :
  builder_at h this m om →
  observe h this
  = Some (om, block_of h om "openGraph", block_of h om "twitter",
          block_of h om "schema").
Proof.
  intros (_ & (ob & Hb & Hm) & Hom). unfold observe. by rewrite Hb, Hm, Hom.
Qed.

Lemma block_of_agree h h' om k :
  (∀ l, om !! k = Some (VRef l) → h' !! l = h !! l) →
  block_of h' om k = block_of h om k.
Proof.
  intros Hl. unfold block_of. destruct (om !! k) as [[| |l]|]; auto.
Qed.

(** A heap that agrees with [h] on a builder, on its metadata object and on
    its nested blocks shows the same builder. *)
Lemma observe_agree h h' this m om :
  builder_at h this m om →
  h' !! this = h !! this → h' !! m = h !! m →
  (∀ k l, om !! k = Some (VRef l) → h' !! l = h !! l) →
  observe h' this = observe h this.
Proof.
  intros Hb Hthis Hm Hblocks.
  assert (Hb' : builder_at h' this m om).
  { destruct Hb as (Hne & (ob & Hcell & Hfield) & Hom).
    split; [done|]. split; [exists ob; split; congruence|congruence]. }
  rewrite (observe_builder _ _ _ _ Hb), (observe_builder _ _ _ _ Hb').
  by rewrite !(block_of_agree h h') by eauto.
Qed.

(** C1. For a builder whose nested blocks are objects of their own, [clone]
    returns a new builder with a metadata object of its own that holds the
    same properties, the references to the nested blocks among them: the
    clone shows what the original shows, and the original is as it was.
    After that, a setter, a [reset] or an assignment to a property of the
    metadata object on the clone leaves what the original shows unchanged,
    the content of its nested blocks included, and indeed every object that
    existed before the clone; and vice versa, such a call on the original
    leaves what the clone shows unchanged, and every object other than the
    original and its metadata object. *)
Theorem clone_copies_top_level h this m om :
  builder_at h this m om →
  blocks_apart h this m om →
  returns (clone this) h
    (λ c h1, ∃ mc,
       builder_at h1 c mc om
       ∧ c ≠ this ∧ mc ≠ m
       ∧ observe h1 c = observe h1 this
       ∧ observe h1 this = observe h this
       ∧ (∀ μ, returns (mutate c μ) h1
                 (λ _ h2, observe h2 this = observe h1 this
                          ∧ ∀ l, is_Some (h !! l) → h2 !! l = h !! l))
       ∧ (∀ μ, returns (mutate this μ) h1
                 (λ _ h2, observe h2 c = observe h1 c
                          ∧ ∀ l, l ≠ this → l ≠ m → is_Some (h1 !! l)
                                 → h2 !! l = h1 !! l))).
Proof.
  intros Hb Hblocks.
  eapply returns_mono; [by apply (returns_clone h this m om)|].
  intros c h1 (mc & Hc & Hc0 & Hmc0 & Hsub).
  pose proof (builder_at_weaken _ _ _ _ _ Hb Hsub) as Hb1.
  pose proof Hb as (Hne & (ob & Hcell & Hfield) & Hom).
  assert (Hin : ∀ l, is_Some (h !! l) → l ≠ c ∧ l ≠ mc ∧ h1 !! l = h !! l).
  { intros l [x Hx]. split; [intros ->; congruence|].
    split; [intros ->; congruence|].
    rewrite Hx. by eapply lookup_weaken. }
  destruct (Hin this) as (? & ? & Hthis1); [by eauto|].
  destruct (Hin m) as (? & ? & Hm1); [by eauto|].
  exists mc. split; [done|]. split; [done|]. split; [done|].
  split; [|split; [|split]].
  - rewrite (observe_builder _ _ _ _ Hc), (observe_builder _ _ _ _ Hb1). done.
  - eapply observe_agree; [exact Hb|done..|].
    intros k l Hl. apply Hin. by apply (Hblocks k).
  - intros μ. eapply returns_mono; [by eapply mutate_frame|].
    intros ? h2 Hframe. simpl in Hframe.
    assert (Hold : ∀ l, is_Some (h !! l) → h2 !! l = h !! l).
    { intros l Hsome. destruct (Hin l Hsome) as (? & ? & Hl1).
      rewrite <- Hl1. apply Hframe; [done..|]. by rewrite Hl1. }
    split; [|exact Hold].
    eapply observe_agree; [exact Hb1|..].
    + rewrite Hthis1. apply Hold. eauto.
    + rewrite Hm1. apply Hold. eauto.
    + intros k l Hl. destruct (Hblocks k l Hl) as (_ & _ & Hsome).
      destruct (Hin l Hsome) as (_ & _ & ->). by apply Hold.
  - intros μ. eapply returns_mono; [by eapply mutate_frame|].
    intros ? h2 Hframe. simpl in Hframe. split; [|exact Hframe].
    pose proof Hc as (? & (obc & Hccell & ?) & Hmccell).
    eapply observe_agree; [exact Hc|..].
    + apply Hframe; [done..|]. eauto.
    + apply Hframe; [done..|]. eauto.
    + intros k l Hl. destruct (Hblocks k l Hl) as (? & ? & Hsome).
      destruct (Hin l Hsome) as (? & ? & Hl1).
      apply Hframe; [done..|]. by rewrite Hl1.
Qed.

Lemma clone_copies_top_level_witness :
  builder_at Sample.builder_heap Sample.builder_loc Sample.metadata_loc
    Sample.builder_props
  ∧ blocks_apart Sample.builder_heap Sample.builder_loc Sample.metadata_loc
      Sample.builder_props
  ∧ returns (clone Sample.builder_loc) Sample.builder_heap
      (λ c h1, ∃ mc,
         builder_at h1 c mc Sample.builder_props
         ∧ c ≠ Sample.builder_loc ∧ mc ≠ Sample.metadata_loc
         ∧ observe h1 c = observe h1 Sample.builder_loc
         ∧ observe h1 Sample.builder_loc
           = observe Sample.builder_heap Sample.builder_loc
         ∧ (∀ μ, returns (mutate c μ) h1
                   (λ _ h2, observe h2 Sample.builder_loc
                            = observe h1 Sample.builder_loc
                            ∧ ∀ l, is_Some (Sample.builder_heap !! l)
                                   → h2 !! l = Sample.builder_heap !! l))
         ∧ (∀ μ, returns (mutate Sample.builder_loc μ) h1
                   (λ _ h2, observe h2 c = observe h1 c
                            ∧ ∀ l, l ≠ Sample.builder_loc
                                   → l ≠ Sample.metadata_loc
                                   → is_Some (h1 !! l) → h2 !! l = h1 !! l))).
Proof.
  assert (Hb : builder_at Sample.builder_heap Sample.builder_loc
                 Sample.metadata_loc Sample.builder_props).
  { split; [discriminate|]. split; [|reflexivity].
    eexists. split; reflexivity. }
  assert (Hblocks : blocks_apart Sample.builder_heap Sample.builder_loc
                      Sample.metadata_loc Sample.builder_props).
  { intros k l. unfold Sample.builder_props.
    rewrite !lookup_insert, lookup_empty.
    repeat case_decide; intros [= <-].
    split; [discriminate|]. split; [discriminate|]. eexists. reflexivity. }
  split; [exact Hb|]. split; [exact Hblocks|].
  exact (clone_copies_top_level _ _ _ _ Hb Hblocks).
Defined.

(** The structured-data block of the original shows what is assigned to the
    structured-data block of the clone. *)
Lemma clone_shares_nested_blocks :
  returns Sample.cloned ∅
    (λ bc h1,
       returns (read_nested bc.1 "schema" "headline") h1 (λ v _, v = VUndefined)
       ∧ returns (assign_nested bc.2 "schema" "headline" (VString "changed")) h1
           (λ _ h2,
              returns (read_nested bc.1 "schema" "headline") h2
                (λ v _, v = VString "changed")
              ∧ observe h2 bc.1 ≠ observe h1 bc.1)).
Proof.
  eexists _, _. split; [vm_compute; reflexivity|].
  split; [eexists _, _; split; vm_compute; reflexivity|].
  eexists _, _. split; [vm_compute; reflexivity|].
  split; [eexists _, _; split; vm_compute; reflexivity|].
  vm_compute. discriminate.
Qed.

(** ** [build] *)

Lemma build_run h this m om :
  builder_at h this m om →
  build this h
  = if truthy (field om "title") && truthy (field om "description")
    then Ret m h else Throw required_msg h.
Proof.
  intros Hb.
  pose proof (returns_metadata_of _ _ _ _ Hb) as (? & ? & Hmeta & -> & ->).
  pose proof Hb as (_ & _ & Hom).
  pose proof (returns_get_prop m "title" om h Hom) as (? & ? & Htitle & -> & ->).
  pose proof (returns_get_prop m "description" om h Hom)
    as (? & ? & Hdesc & -> & ->).
  unfold build, bind. rewrite Hmeta, Htitle. fold (field om "title").
  destruct (truthy (field om "title")); simpl; [|done].
  unfold bind. rewrite Hmeta, Hdesc. fold (field om "description").
  destruct (truthy (field om "description")); simpl; [|done].
  by rewrite Hmeta.
Qed.

(** C5. [build] throws "Title and description are required" when the title
    or the description accumulated is absent or the empty string, and only
    then: when both are there and not empty it returns the metadata object
    of the builder, in an unchanged heap.  On a builder just constructed it
    throws. *)
Theorem build_requires_title_and_description h this m om :
  builder_at h this m om →
  (absent_or_empty (field om "title") ∨ absent_or_empty (field om "description")
     → build this h = Throw required_msg h)
  ∧ (¬ absent_or_empty (field om "title") →
     ¬ absent_or_empty (field om "description") →
     build this h = Ret m h)
  ∧ (∀ h0, returns new_SEOMetadataBuilder h0
             (λ b h1, build b h1 = Throw required_msg h1)).
Proof.
  intros Hb. rewrite (build_run _ _ _ _ Hb). split; [|split].
  - intros [Ha|Ha]; apply truthy_false in Ha; rewrite Ha; [done|].
    by rewrite andb_false_r.
  - intros Ht Hd. rewrite <- truthy_false in Ht, Hd.
    apply not_false_is_true in Ht, Hd. by rewrite Ht, Hd.
  - intros h0. eapply returns_mono; [apply returns_new_SEOMetadataBuilder|].
    intros b h1 (m1 & Hb1 & _). by rewrite (build_run _ _ _ _ Hb1).
Qed.

Lemma build_requires_title_and_description_witness :
  builder_at Sample.builder_heap Sample.builder_loc Sample.metadata_loc
    Sample.builder_props
  ∧ ¬ absent_or_empty (field Sample.builder_props "title")
  ∧ ¬ absent_or_empty (field Sample.builder_props "description")
  ∧ build Sample.builder_loc Sample.builder_heap
    = Ret Sample.metadata_loc Sample.builder_heap.
Proof.
  assert (Hb : builder_at Sample.builder_heap Sample.builder_loc
                 Sample.metadata_loc Sample.builder_props).
  { split; [discriminate|]. split; [|reflexivity].
    eexists. split; reflexivity. }
  assert (Ht : ¬ absent_or_empty (field Sample.builder_props "title")).
  { intros [?|?]; discriminate. }
  assert (Hd : ¬ absent_or_empty (field Sample.builder_props "description")).
  { intros [?|?]; discriminate. }
  split; [exact Hb|]. split; [exact Ht|]. split; [exact Hd|].
  exact (proj1 (proj2 (build_requires_title_and_description _ _ _ _ Hb)) Ht Hd).
Defined.

(** A title that is set, to the empty string, makes [build] throw. *)
Lemma build_rejects_empty_title :
  returns (let! b := new_SEOMetadataBuilder in setBasicMetadata b "" "A description")
    ∅
    (λ b h, (∃ m om, builder_at h b m om
               ∧ om !! "title" = Some (VString "")
               ∧ om !! "description" = Some (VString "A description"))
            ∧ build b h = Throw required_msg h).
Proof.
  eexists _, _. split; [vm_compute; reflexivity|].
  split; [|vm_compute; reflexivity].
  eexists 1%positive, _. split; [|split].
  - split; [discriminate|]. split; [|vm_compute; reflexivity].
    eexists. split; vm_compute; reflexivity.
  - reflexivity.
  - reflexivity.
Qed.

(** ** [fromBlogPost] *)

(** One statement of [fromBlogPost]: an allocation of an object literal, or
    a call of a setter on the builder under construction. *)
Ltac alloc_step Hb l :=
  let Hl := fresh "Hl" in
  let Hb' := fresh "Hb" in
  apply returns_bind; eapply returns_mono; [apply returns_alloc|];
  intros l ? [Hl ->];
  epose proof (builder_at_alloc _ _ _ _ l _ Hb Hl) as Hb';
  clear Hb Hl; rename Hb' into Hb.

Ltac setter_step Hb :=
  let Hb' := fresh "Hb" in
  apply returns_bind; eapply returns_mono; [eapply returns_set_field, Hb|];
  intros ? ? [-> ->];
  epose proof (builder_at_update _ _ _ _ _ Hb) as Hb';
  clear Hb; rename Hb' into Hb.

(** What [fromBlogPost] sets as canonical URL *)
Lemma fromBlogPost_run SITE_website SITE_title toISOString post baseUrl h :
  returns (fromBlogPost SITE_website SITE_title toISOString post baseUrl) h
    (λ b h', ∃ m om, builder_at h' b m om
       ∧ field om "canonical"
         = VString (if present (canonicalURL (data post))
                    then default "" (canonicalURL (data post))
                    else baseUrl +:+ "/posts/" +:+ id post)).
Proof.
  unfold fromBlogPost. apply returns_bind.
  eapply returns_mono; [apply returns_new_SEOMetadataBuilder|].
  intros b h0 (m & Hb & _). apply returns_bind.
  eapply returns_mono; [eapply returns_setBasicMetadata, Hb|].
  intros ? ? [-> ->].
  epose proof (builder_at_update _ _ _ _ _ Hb) as Hb'. clear Hb. rename Hb' into Hb.
  unfold setCanonical, setOpenGraph, setTwitter, setSchema.
  setter_step Hb.
  alloc_step Hb og. setter_step Hb.
  alloc_step Hb twitter. setter_step Hb.
  alloc_step Hb author_. alloc_step Hb logo. alloc_step Hb publisher.
  alloc_step Hb schema. setter_step Hb.
  apply returns_ret. eexists m, _. split; [exact Hb|].
  unfold field. by rewrite !lookup_insert_ne, lookup_insert_eq by done.
Qed.

(** C6. The builder that [fromBlogPost(post, baseUrl)] returns has as
    canonical URL [baseUrl + "/posts/" + id] when the post gives no canonical
    URL or gives the empty string, and the canonical URL of the post when it
    gives one that is not empty. *)
Theorem fromBlogPost_canonical
    (SITE_website SITE_title : string) (toISOString : Z → string)
    (post : Post) (baseUrl : string) h :
  returns (fromBlogPost SITE_website SITE_title toISOString post baseUrl) h
    (λ b h', ∃ m om, builder_at h' b m om
       ∧ (canonicalURL (data post) = None ∨ canonicalURL (data post) = Some ""
            → field om "canonical" = VString (baseUrl +:+ "/posts/" +:+ id post))
       ∧ (∀ u, canonicalURL (data post) = Some u → u ≠ ""
            → field om "canonical" = VString u)).
Proof.
  eapply returns_mono; [apply fromBlogPost_run|].
  intros b h' (m & om & Hb & Hc). exists m, om. split; [done|].
  rewrite Hc. split.
  - by intros [->| ->].
  - intros u -> Hu. simpl. apply String.eqb_neq in Hu. by rewrite Hu.
Qed.

(** A post whose canonical URL is the empty string gets the default one. *)
Lemma fromBlogPost_empty_canonical :
  canonicalURL (data Sample.empty_canonical) = Some ""
  ∧ returns
      (fromBlogPost "https://x.test" "Site" Sample.iso Sample.empty_canonical
         "https://x.test") ∅
      (λ b h,
         returns (let! m := getPartial b in get_prop m "canonical") h
           (λ v _, v = VString "https://x.test/posts/one" ∧ v ≠ VString "")).
Proof.
  split; [reflexivity|].
  eexists _, _. split; [vm_compute; reflexivity|].
  eexists _, _. split; [vm_compute; reflexivity|].
  split; [reflexivity|discriminate].
Qed.

(** * More of [BlogPostManager] *)

Lemma prefix_refl s : String.prefix s s = true.
Proof.
  induction s as [|c s IH]; simpl; [done|].
  destruct (Ascii.ascii_dec c c); [done|congruence].
Qed.

Lemma includes_refl s : includes s s = true.
Proof.
  destruct s as [|c s]; [done|]. cbn [includes]. by rewrite prefix_refl.
Qed.


Lemma searchPosts_run toLowerCase h this l keyword :
  h !! posts this = Some (PostArr l) →
  returns (searchPosts toLowerCase this keyword) h
    (fresh_array h
       (filter
          (λ post : Post,
             includes (toLowerCase (title (data post))) (toLowerCase keyword)
             || includes (toLowerCase (description (data post)))
                  (toLowerCase keyword)
             || existsb (λ tag, includes (toLowerCase tag) (toLowerCase keyword))
                  (tags (data post)))
          l)).
Proof. intros Hl. by apply (returns_Array_filter (A:=Post)). Qed.



(** X2. Whatever lower-casing does, a post the manager holds is among the
    posts found under its own title, and among those found under its own
    description. *)
Theorem searchPosts_finds_own_text (toLowerCase : string → string) h this l p :
  h !! posts this = Some (PostArr l) →
  p ∈ l →
  returns (searchPosts toLowerCase this (title (data p))) h
    (λ r h', ∃ found, h' !! r = Some (PostArr found) ∧ p ∈ found)
  ∧ returns (searchPosts toLowerCase this (description (data p))) h
      (λ r h', ∃ found, h' !! r = Some (PostArr found) ∧ p ∈ found).
Proof.
  intros Hl Hp. split.
  - eapply returns_mono; [by apply searchPosts_run|].
    intros r h' Hr. eexists. split; [exact (fresh_array_lookup _ _ _ _ Hr)|].
    apply list_elem_of_filter. split; [|done]. by rewrite includes_refl.
  - eapply returns_mono; [by apply searchPosts_run|].
    intros r h' Hr. eexists. split; [exact (fresh_array_lookup _ _ _ _ Hr)|].
    apply list_elem_of_filter. split; [|done].
    by rewrite includes_refl, orb_true_r.
Qed.

Lemma searchPosts_finds_own_text_witness :
  Sample.heap_of [Sample.pa; Sample.pab; Sample.pc] !! posts Sample.manager
    = Some (PostArr [Sample.pa; Sample.pab; Sample.pc])
  ∧ Sample.pab ∈ [Sample.pa; Sample.pab; Sample.pc]
  ∧ returns (searchPosts Sample.lower Sample.manager (title (data Sample.pab)))
      (Sample.heap_of [Sample.pa; Sample.pab; Sample.pc])
      (λ r h', ∃ found, h' !! r = Some (PostArr found) ∧ Sample.pab ∈ found)
  ∧ returns
      (searchPosts Sample.lower Sample.manager (description (data Sample.pab)))
      (Sample.heap_of [Sample.pa; Sample.pab; Sample.pc])
      (λ r h', ∃ found, h' !! r = Some (PostArr found) ∧ Sample.pab ∈ found).
Proof.
  assert (Hin : Sample.pab ∈ [Sample.pa; Sample.pab; Sample.pc])
    by (right; left).
  split; [reflexivity|]. split; [exact Hin|].
  apply (searchPosts_finds_own_text Sample.lower _ _
           [Sample.pa; Sample.pab; Sample.pc] Sample.pab); [reflexivity|exact Hin].
Defined.

Lemma find_first {A} (f : A → bool) (l : list A) :
  match find f l with
  | Some x => f x = true
              ∧ ∃ before after, l = before ++ x :: after
                                ∧ ∀ y, y ∈ before → f y = false
  | None => ∀ y, y ∈ l → f y = false
  end.
Proof.
  induction l as [|x l IH]; simpl.
  - intros y Hy. by apply elem_of_nil in Hy.
  - destruct (f x) eqn:Hx.
    + split; [done|]. exists [], l. split; [done|].
      intros y Hy. by apply elem_of_nil in Hy.
    + destruct (find f l) as [z|].
      * destruct IH as (Hz & before & after & -> & Hb). split; [done|].
        exists (x :: before), after. split; [done|].
        intros y [->|Hy]%elem_of_cons; auto.
      * intros y [->|Hy]%elem_of_cons; auto.
Qed.

Lemma NoDup_fmap_elem_eq {A B} (f : A → B) (l : list A) x y :
  NoDup (f <$> l) → x ∈ l → y ∈ l → f x = f y → x = y.
Proof.
  induction l as [|z l IH]; intros Hnd Hx Hy Hf.
  { by apply elem_of_nil in Hx. }
  rewrite fmap_cons in Hnd. apply NoDup_cons in Hnd as [Hz Hnd].
  apply elem_of_cons in Hx as [->|Hx]; apply elem_of_cons in Hy as [->|Hy].
  - done.
  - destruct Hz. rewrite Hf. by apply list_elem_of_fmap_2.
  - destruct Hz. rewrite <- Hf. by apply list_elem_of_fmap_2.
  - by apply IH.
Qed.

(** X3. [getPostById(id)] changes nothing and returns the first post held
    whose identifier is [id], or nothing ([undefined]) exactly when no post
    held has it; when the identifiers of the posts held are distinct, it
    returns every post held under that post's identifier. *)
Theorem getPostById_lookup h this l (i : string) :
  h !! posts this = Some (PostArr l) →
  returns (getPostById this i) h
    (λ r h',
       h' = h
       ∧ match r with
         | Some p =>
             id p = i
             ∧ ∃ before after, l = before ++ p :: after
                               ∧ ∀ q, q ∈ before → id q ≠ i
         | None => ∀ q, q ∈ l → id q ≠ i
         end
       ∧ (NoDup (id <$> l) → ∀ p, p ∈ l → id p = i → r = Some p)).
Proof.
  intros Hl. unfold getPostById.
  eapply returns_mono; [by apply (returns_Array_find (A:=Post))|].
  intros r h' [-> ->]. split; [done|].
  pose proof (find_first (λ post : Post, String.eqb (id post) i) l) as Hfind.
  assert (Hspec : match find (λ post : Post, String.eqb (id post) i) l with
                  | Some p =>
                      id p = i
                      ∧ ∃ before after, l = before ++ p :: after
                                        ∧ ∀ q, q ∈ before → id q ≠ i
                  | None => ∀ q, q ∈ l → id q ≠ i
                  end).
  { destruct (find _ l) as [p|].
    - destruct Hfind as (Hp & before & after & -> & Hb).
      split; [by apply String.eqb_eq|]. exists before, after. split; [done|].
      intros q Hq. by apply String.eqb_neq, Hb.
    - intros q Hq. by apply String.eqb_neq, Hfind. }
  split; [exact Hspec|].
  intros Hnd p Hp Hid. destruct (find _ l) as [p'|].
  - destruct Hspec as (Hid' & before & after & Hl' & _). f_equal.
    apply (NoDup_fmap_elem_eq id l); [done| |done|congruence].
    rewrite Hl'. apply elem_of_app. right. by left.
  - by destruct (Hspec p Hp).
Qed.

Lemma getPostById_lookup_witness :
  Sample.heap_of [Sample.pa; Sample.pab; Sample.pc] !! posts Sample.manager
    = Some (PostArr [Sample.pa; Sample.pab; Sample.pc])
  ∧ returns (getPostById Sample.manager "two")
      (Sample.heap_of [Sample.pa; Sample.pab; Sample.pc])
      (λ r h',
         h' = Sample.heap_of [Sample.pa; Sample.pab; Sample.pc]
         ∧ match r with
           | Some p =>
               id p = "two"
               ∧ ∃ before after,
                   [Sample.pa; Sample.pab; Sample.pc] = before ++ p :: after
                   ∧ ∀ q, q ∈ before → id q ≠ "two"
           | None => ∀ q, q ∈ [Sample.pa; Sample.pab; Sample.pc] → id q ≠ "two"
           end
         ∧ (NoDup (id <$> [Sample.pa; Sample.pab; Sample.pc]) →
            ∀ p, p ∈ [Sample.pa; Sample.pab; Sample.pc] → id p = "two"
                 → r = Some p)).
Proof.
  split; [reflexivity|].
  apply (getPostById_lookup _ _ [Sample.pa; Sample.pab; Sample.pc] "two").
  reflexivity.
Defined.

(** ** Grouping by year *)

Lemma distinct_in_order_snoc l y :
  distinct_in_order (l ++ [y])
  = if decide (y ∈ distinct_in_order l) then distinct_in_order l
    else distinct_in_order l ++ [y].
Proof. unfold distinct_in_order. by rewrite foldl_app. Qed.

Lemma distinct_in_order_elem_of l y : y ∈ distinct_in_order l ↔ y ∈ l.
Proof.
  induction l as [|x l IH] using rev_ind.
  - done.
  - rewrite distinct_in_order_snoc. case_decide as Hx.
    + rewrite elem_of_app, list_elem_of_singleton, IH.
      split; [tauto|]. intros [?| ->]; [done|]. by apply IH.
    + by rewrite !elem_of_app, IH.
Qed.

Lemma distinct_in_order_NoDup l : NoDup (distinct_in_order l).
Proof.
  induction l as [|x l IH] using rev_ind.
  - constructor.
  - rewrite distinct_in_order_snoc. case_decide as Hx; [done|].
    apply NoDup_app. split; [done|]. split; [|apply NoDup_singleton].
    intros y Hy ->%list_elem_of_singleton. done.
Qed.

Lemma Map_get_None {V} (m : list (Z * V)) k : Map_get m k = None ↔ k ∉ m.*1.
Proof.
  unfold Map_get. induction m as [|[k' v'] m IH]; simpl.
  - split; [intros _ Hk; by apply elem_of_nil in Hk|done].
  - case_bool_decide as Hk; simpl in *.
    + subst. split; [done|]. intros Hn. destruct Hn. by left.
    + rewrite IH, not_elem_of_cons. split; [by intros ?|tauto].
Qed.

Lemma Map_set_existing {V} (m : list (Z * V)) k v :
  NoDup m.*1 → (k, v) ∈ m → Map_set m k v = m.
Proof.
  induction m as [|[k' v'] m IH]; intros Hnd Hin; simpl.
  { by apply elem_of_nil in Hin. }
  rewrite fmap_cons in Hnd. apply NoDup_cons in Hnd as [Hk' Hnd].
  case_bool_decide as Hk; simpl in *.
  - subst. apply elem_of_cons in Hin as [[= ->]|Hin]; [done|].
    destruct Hk'. by apply (list_elem_of_fmap_2 fst) in Hin.
  - apply elem_of_cons in Hin as [[= -> ->]|Hin]; [done|].
    by rewrite IH.
Qed.

Lemma Map_set_new {V} (m : list (Z * V)) k v :
  k ∉ m.*1 → Map_set m k v = m ++ [(k, v)].
Proof.
  induction m as [|[k' v'] m IH]; intros Hk; simpl; [done|].
  rewrite fmap_cons in Hk. apply not_elem_of_cons in Hk as [Hne Hk].
  rewrite bool_decide_eq_false_2 by done. by rewrite IH.
Qed.

Lemma forEach_grouped getFullYear h0 (todo seen : list Post) m h :
  grouped getFullYear h0 h seen m →
  returns
    (forEach
       (λ (groupedPosts : list (Z * loc)) (post : Post),
          let year := getFullYear (pubDatetime (data post)) in
          let! yearPosts :=
            match Map_get groupedPosts year with
            | Some a => ret a
            | None => Array_new (A:=Post) []
            end in
          Array_push yearPosts post;;;
          ret (Map_set groupedPosts year yearPosts))
       todo m) h
    (λ g h', grouped getFullYear h0 h' (seen ++ todo) g).
Proof.
  revert seen m h.
  induction todo as [|p todo IH]; intros seen m h Hg; simpl.
  { apply returns_ret. by rewrite app_nil_r. }
  destruct Hg as (Hsub & Hkeys & Hnd & Hm).
  set (y := getFullYear (pubDatetime (data p))).
  assert (Hy : year_of getFullYear p = y) by done.
  assert (Hndk : NoDup m.*1) by (rewrite Hkeys; apply distinct_in_order_NoDup).
  assert (Hother : ∀ y' a', (y', a') ∈ m → y' ≠ y →
            filter (λ q, year_of getFullYear q = y') (seen ++ [p])
            = filter (λ q, year_of getFullYear q = y') seen).
  { intros y' a' _ Hne.
    rewrite filter_app, filter_cons_False, filter_nil, app_nil_r; [done|].
    rewrite Hy. congruence. }
  assert (Hsame : filter (λ q, year_of getFullYear q = y) (seen ++ [p])
                  = filter (λ q, year_of getFullYear q = y) seen ++ [p]).
  { by rewrite filter_app, filter_cons_True. }
  replace (seen ++ p :: todo) with ((seen ++ [p]) ++ todo)
    by by rewrite <- app_assoc.
  apply returns_bind, returns_bind.
  destruct (Map_get m y) as [a|] eqn:Hget.
  - apply returns_ret.
    apply Map_get_elem_of in Hget as Hin. destruct (Hm y a Hin) as [Ha0 Ha].
    apply returns_bind.
    eapply returns_mono; [by apply (returns_Array_push (A:=Post))|].
    intros ? h1 ->. apply returns_ret. apply IH.
    rewrite Map_set_existing by done.
    split; [by apply insert_subseteq_r|]. split; [|split; [done|]].
    + rewrite fmap_snoc, distinct_in_order_snoc, decide_True; [done|].
      rewrite <- Hkeys, Hy. by apply (list_elem_of_fmap_2 fst) in Hin.
    + intros y' a' Hin'. destruct (Hm y' a' Hin') as [Ha0' Ha'].
      split; [done|]. destruct (decide (a' = a)) as [->|Hne].
      * assert (y' = y) as ->.
        { by injection (NoDup_fmap_elem_eq snd m (y', a) (y, a) Hnd Hin' Hin eq_refl). }
        by rewrite lookup_insert_eq, Hsame.
      * rewrite lookup_insert_ne by done.
        rewrite (Hother y' a' Hin'); [done|]. intros ->. apply Hne.
        by injection (NoDup_fmap_elem_eq fst m (y, a') (y, a) Hndk Hin' Hin eq_refl).
  - apply Map_get_None in Hget as Hnew.
    eapply returns_mono; [apply (returns_Array_new (A:=Post))|].
    intros a h1 [Ha ->]. apply returns_bind.
    eapply returns_mono;
      [apply (returns_Array_push (A:=Post) _ _ []); apply lookup_insert_eq|].
    intros ? h2 ->. apply returns_ret. apply IH.
    rewrite insert_insert_eq, Map_set_new by done.
    assert (Hfresh : ∀ y' a', (y', a') ∈ m → a' ≠ a ∧ y' ≠ y).
    { intros y' a' Hin'. destruct (Hm y' a' Hin') as [_ Ha']. split.
      - intros ->. congruence.
      - intros ->. apply Hnew. by apply (list_elem_of_fmap_2 fst) in Hin'. }
    split; [etrans; [done|]; by apply insert_subseteq|].
    split; [|split].
    + rewrite !fmap_snoc, distinct_in_order_snoc, decide_False, Hkeys, Hy;
        [done|]. by rewrite <- Hkeys, Hy.
    + rewrite fmap_snoc. apply NoDup_app. split; [done|].
      split; [|apply NoDup_singleton].
      intros b Hb ->%list_elem_of_singleton.
      apply list_elem_of_fmap in Hb as ([y' a'] & Heq & Hin').
      simpl in Heq. subst a'. by destruct (Hfresh y' a Hin').
    + intros y' a' [Hin'|[= -> ->]%list_elem_of_singleton]%elem_of_app.
      * destruct (Hm y' a' Hin') as [Ha0' Ha'].
        destruct (Hfresh y' a' Hin') as [Hne Hney].
        split; [done|]. rewrite lookup_insert_ne by done.
        by rewrite (Hother y' a' Hin').
      * split; [by eapply lookup_weaken_None|].
        rewrite lookup_insert_eq, Hsame. do 2 f_equal.
        rewrite filter_none; [done|]. intros q Hq Hqy. apply Hnew.
        rewrite Hkeys. apply distinct_in_order_elem_of.
        rewrite <- Hqy. by apply list_elem_of_fmap_2.
Qed.

(** X4. [groupPostsByYear] returns normally and only allocates.  The keys
    of the [Map] it returns are the years of the posts held, each once, in
    the order in which they occur first; the arrays it refers to are new and
    distinct, and the array of a year holds exactly the posts of that year,
    in the order the manager holds them; every post held is in the array of
    its year. *)
Theorem groupPostsByYear_partition (getFullYear : Z → Z) h this l :
  h !! posts this = Some (PostArr l) →
  returns (groupPostsByYear getFullYear this) h
    (λ g h',
       h ⊆ h'
       ∧ g.*1 = distinct_in_order (year_of getFullYear <$> l)
       ∧ NoDup g.*1
       ∧ NoDup g.*2
       ∧ (∀ y a, (y, a) ∈ g →
            h !! a = None
            ∧ h' !! a
              = Some (PostArr (filter (λ p, year_of getFullYear p = y) l)))
       ∧ (∀ p, p ∈ l → ∃ a, (year_of getFullYear p, a) ∈ g)).
Proof.
  intros Hl. unfold groupPostsByYear. apply returns_bind.
  eapply returns_mono; [by apply (returns_Array_read (A:=Post))|].
  intros ? ? [-> ->].
  eapply returns_mono; [apply (forEach_grouped getFullYear h l [] [] h)|].
  - split; [done|]. split; [done|]. split; [constructor|].
    intros y a Hin. by apply elem_of_nil in Hin.
  - intros g h' (Hsub & Hkeys & Hnd & Hg). simpl in *.
    split; [done|]. split; [done|].
    split; [rewrite Hkeys; apply distinct_in_order_NoDup|].
    split; [done|]. split; [done|].
    intros p Hp.
    assert (Hy : year_of getFullYear p ∈ g.*1).
    { rewrite Hkeys. apply distinct_in_order_elem_of.
      by apply list_elem_of_fmap_2. }
    apply list_elem_of_fmap in Hy as ([y a] & Hy & Hin). simpl in Hy.
    exists a. by rewrite Hy.
Qed.

Lemma groupPostsByYear_partition_witness :
  Sample.heap_of [Fixture.late; Fixture.mid; Fixture.early] !! posts Sample.manager
    = Some (PostArr [Fixture.late; Fixture.mid; Fixture.early])
  ∧ returns (groupPostsByYear Sample.year Sample.manager)
      (Sample.heap_of [Fixture.late; Fixture.mid; Fixture.early])
      (λ g h',
         Sample.heap_of [Fixture.late; Fixture.mid; Fixture.early] ⊆ h'
         ∧ g.*1 = distinct_in_order
                    (year_of Sample.year
                       <$> [Fixture.late; Fixture.mid; Fixture.early])
         ∧ NoDup g.*1
         ∧ NoDup g.*2
         ∧ (∀ y a, (y, a) ∈ g →
              Sample.heap_of [Fixture.late; Fixture.mid; Fixture.early] !! a = None
              ∧ h' !! a
                = Some (PostArr (filter (λ p, year_of Sample.year p = y)
                                   [Fixture.late; Fixture.mid; Fixture.early])))
         ∧ (∀ p, p ∈ [Fixture.late; Fixture.mid; Fixture.early] →
              ∃ a, (year_of Sample.year p, a) ∈ g)).
Proof.
  split; [reflexivity|].
  apply (groupPostsByYear_partition Sample.year _ _
           [Fixture.late; Fixture.mid; Fixture.early]).
  reflexivity.
Defined.

(** ** Arrays handed out *)

Lemma run_query_fresh toLowerCase getFullYear this l q h :
  h !! posts this = Some (PostArr l) →
  q ≠ QAll →
  returns (run_query toLowerCase getFullYear this q) h
    (λ ans h', ∀ a, ans = APosts a → h !! a = None).
Proof.
  intros Hl Hq.
  destruct q; simpl; try done; apply returns_bind.
  - eapply returns_mono; [by apply (returns_Array_filter (A:=Post))|].
    intros a h' [Ha _]. apply returns_ret. by intros ? [= <-].
  - eapply returns_mono; [by apply (returns_Array_filter (A:=Post))|].
    intros a h' [Ha _]. apply returns_ret. by intros ? [= <-].
  - eapply returns_mono; [by apply (returns_Array_filter (A:=Post))|].
    intros a h' [Ha _]. apply returns_ret. by intros ? [= <-].
  - eapply returns_mono; [by apply (returns_Array_slice (A:=Post))|].
    intros a h' [Ha _]. apply returns_ret. by intros ? [= <-].
  - eapply returns_mono; [by apply (returns_Array_find (A:=Post))|].
    intros a h' _. by apply returns_ret.
  - eapply returns_mono; [by apply (returns_Array_filter (A:=Post))|].
    intros a h' [Ha _]. apply returns_ret. by intros ? [= <-].
  - unfold groupPostsByYear. apply returns_bind.
    eapply returns_mono; [by apply (returns_Array_read (A:=Post))|].
    intros ? ? [-> ->].
    eapply returns_mono; [apply (forEach_group getFullYear h)|].
    + split; [done|]. intros k a Hin. by apply elem_of_nil in Hin.
    + intros g h' _. by apply returns_ret.
  - eapply returns_mono; [by apply (returns_Array_length (A:=Post))|].
    intros a h' _. by apply returns_ret.
  - eapply returns_mono; [by apply findRelatedPosts_run|].
    intros a h' (Ha & _). apply returns_ret. by intros ? [= <-].
Qed.

(** X5. [getAllPosts] returns the array the manager holds, not a copy: a
    post that the caller pushes onto the array returned is held by the
    manager from then on, and counted by [getPostCount].  Every other method
    that returns an array returns a new one. *)
Theorem getAllPosts_hands_out_the_array_held
    (toLowerCase : string → string) (getFullYear : Z → Z) h this l :
  h !! posts this = Some (PostArr l) →
  returns (getAllPosts this) h
    (λ a h1,
       a = posts this ∧ h1 = h
       ∧ ∀ p, returns (Array_push a p) h1
                (λ _ h2,
                   h2 !! posts this = Some (PostArr (l ++ [p]))
                   ∧ returns (getPostCount this) h2
                       (λ n _, n = (Z.of_nat (length l) + 1)%Z)))
  ∧ ∀ q, q ≠ QAll →
         returns (run_query toLowerCase getFullYear this q) h
           (λ ans h', h' !! posts this = Some (PostArr l)
                      ∧ ∀ a, ans = APosts a → h !! a = None ∧ a ≠ posts this).
Proof.
  intros Hl. split.
  - apply returns_ret. split; [done|]. split; [done|]. intros p.
    eapply returns_mono; [by apply (returns_Array_push (A:=Post))|].
    intros ? h2 ->. split; [apply lookup_insert_eq|].
    eapply returns_mono;
      [apply (returns_Array_length (A:=Post)), lookup_insert_eq|].
    intros n ? [-> _]. rewrite length_app. simpl. lia.
  - intros q Hq.
    pose proof (run_query_extends toLowerCase getFullYear this l q h Hl)
      as (ans & h' & Hrun & Hsub).
    pose proof (run_query_fresh toLowerCase getFullYear this l q h Hl Hq)
      as (ans' & h'' & Hrun' & Hfresh).
    rewrite Hrun in Hrun'. injection Hrun' as <- <-.
    exists ans, h'. split; [done|]. split; [by eapply lookup_weaken|].
    intros a Ha. split; [by apply Hfresh|]. intros ->.
    apply Hfresh in Ha. congruence.
Qed.

Lemma getAllPosts_hands_out_the_array_held_witness :
  Sample.heap_of [Sample.pa; Sample.pab] !! posts Sample.manager
    = Some (PostArr [Sample.pa; Sample.pab])
  ∧ returns (getAllPosts Sample.manager) (Sample.heap_of [Sample.pa; Sample.pab])
      (λ a h1,
         a = posts Sample.manager ∧ h1 = Sample.heap_of [Sample.pa; Sample.pab]
         ∧ ∀ p, returns (Array_push a p) h1
                  (λ _ h2,
                     h2 !! posts Sample.manager
                     = Some (PostArr ([Sample.pa; Sample.pab] ++ [p]))
                     ∧ returns (getPostCount Sample.manager) h2
                         (λ n _, n = (Z.of_nat 2 + 1)%Z))).
Proof.
  split; [reflexivity|].
  apply (getAllPosts_hands_out_the_array_held Sample.lower Sample.year _ _
           [Sample.pa; Sample.pab]).
  reflexivity.
Defined.

(** ** Limits *)

Lemma Array_slice_list_drop_last {A} (k : nat) (l : list A) :
  0 < k →
  Array_slice_list 0 (- Z.of_nat k) l = take (length l - k) l.
Proof.
  intros Hk. unfold Array_slice_list.
  destruct (Z.ltb_spec (- Z.of_nat k) 0) as [_|]; [|exfalso; lia].
  simpl. rewrite (Z.min_l 0) by lia. simpl. rewrite drop_0.
  f_equal. lia.
Qed.

Lemma take_prefix_of {A} (n n' : nat) (l : list A) :
  n ≤ n' → take n l `prefix_of` take n' l.
Proof.
  intros Hn. exists (take (n' - n) (drop n l)).
  rewrite take_take_drop. f_equal. lia.
Qed.

(** X6. Without a limit, [getRecentPosts] returns the first five posts held;
    with a negative limit [-k] it returns the posts held without the last
    [k], not an empty array. *)
Theorem getRecentPosts_default_and_negative h this l :
  h !! posts this = Some (PostArr l) →
  returns (getRecentPosts this None) h
    (λ r h', h' !! r = Some (PostArr (take 5 l)))
  ∧ ∀ k : nat, 0 < k →
      returns (getRecentPosts this (Some (- Z.of_nat k)%Z)) h
        (λ r h', h' !! r = Some (PostArr (take (length l - k) l))).
Proof.
  intros Hl. split.
  - eapply returns_mono; [by apply (returns_Array_slice (A:=Post))|].
    intros r h' Hr. rewrite (fresh_array_lookup _ _ _ _ Hr). simpl.
    by rewrite Array_slice_list_take.
  - intros k Hk.
    eapply returns_mono; [by apply (returns_Array_slice (A:=Post))|].
    intros r h' Hr. rewrite (fresh_array_lookup _ _ _ _ Hr). simpl.
    by rewrite Array_slice_list_drop_last.
Qed.

Lemma getRecentPosts_default_and_negative_witness :
  Sample.heap_of [Sample.pa; Sample.pab; Sample.pc] !! posts Sample.manager
    = Some (PostArr [Sample.pa; Sample.pab; Sample.pc])
  ∧ 0 < 1
  ∧ returns (getRecentPosts Sample.manager (Some (- Z.of_nat 1)%Z))
      (Sample.heap_of [Sample.pa; Sample.pab; Sample.pc])
      (λ r h', h' !! r = Some (PostArr [Sample.pa; Sample.pab])).
Proof.
  split; [reflexivity|]. split; [lia|].
  apply (getRecentPosts_default_and_negative _ _
           [Sample.pa; Sample.pab; Sample.pc]); [reflexivity|lia].
Defined.

(** X7. The related posts for a limit are the first entries of the related
    posts for any larger limit, and never more than the limit; without a
    limit there are at most three, and with a negative limit [-k] the [k]
    entries that rank last are left out. *)
Theorem findRelatedPosts_limits h this l currentPost :
  h !! posts this = Some (PostArr l) →
  (∀ n n' : nat, n ≤ n' →
     returns (findRelatedPosts this currentPost (Some (Z.of_nat n))) h
       (λ r1 h1,
          returns (findRelatedPosts this currentPost (Some (Z.of_nat n'))) h1
            (λ r2 h2, ∃ res1 res2,
               h2 !! r1 = Some (RelArr res1)
               ∧ h2 !! r2 = Some (RelArr res2)
               ∧ res1 `prefix_of` res2
               ∧ length res1 ≤ n)))
  ∧ returns (findRelatedPosts this currentPost None) h
      (λ r h', ∃ res, h' !! r = Some (RelArr res) ∧ length res ≤ 3)
  ∧ (∀ k : nat, 0 < k →
       returns (findRelatedPosts this currentPost (Some (- Z.of_nat k)%Z)) h
         (λ r1 h1,
            returns (findRelatedPosts this currentPost
                       (Some (Z.of_nat (length l)))) h1
              (λ r2 h2, ∃ res1 res2,
                 h2 !! r1 = Some (RelArr res1)
                 ∧ h2 !! r2 = Some (RelArr res2)
                 ∧ res1 = take (length res2 - k) res2))).
Proof.
  intros Hl. split; [|split].
  - intros n n' Hn.
    eapply returns_mono; [by apply findRelatedPosts_run|].
    intros r1 h1 (_ & Hsub1 & Hr1).
    eapply returns_mono;
      [apply findRelatedPosts_run; by eapply lookup_weaken|].
    intros r2 h2 (_ & Hsub2 & Hr2). eexists _, _.
    split; [by eapply lookup_weaken|]. split; [done|].
    unfold related_list. simpl. rewrite !Array_slice_list_take by lia.
    rewrite !Nat2Z.id. split; [by apply take_prefix_of|].
    rewrite length_take. lia.
  - eapply returns_mono; [by apply findRelatedPosts_run|].
    intros r h' (_ & _ & Hr). eexists. split; [done|].
    unfold related_list. simpl. rewrite Array_slice_list_take by lia.
    rewrite length_take. lia.
  - intros k Hk.
    eapply returns_mono; [by apply findRelatedPosts_run|].
    intros r1 h1 (_ & Hsub1 & Hr1).
    eapply returns_mono;
      [apply findRelatedPosts_run; by eapply lookup_weaken|].
    intros r2 h2 (_ & Hsub2 & Hr2). eexists _, _.
    split; [by eapply lookup_weaken|]. split; [done|].
    unfold related_list. simpl.
    rewrite Array_slice_list_drop_last, Array_slice_list_take by lia.
    rewrite Nat2Z.id.
    assert (Hlen : length (ranked_list l currentPost) ≤ length l).
    { unfold ranked_list. rewrite Array_sort_list_Permutation.
      etrans; [apply length_filter|]. rewrite length_fmap. apply length_filter. }
    by rewrite (take_ge _ (length l)) by done.
Qed.

Lemma findRelatedPosts_limits_witness :
  Sample.heap_of [Sample.pa; Sample.pc; Sample.pab] !! posts Sample.manager
    = Some (PostArr [Sample.pa; Sample.pc; Sample.pab])
  ∧ returns (findRelatedPosts Sample.manager Sample.reference None)
      (Sample.heap_of [Sample.pa; Sample.pc; Sample.pab])
      (λ r h', ∃ res, h' !! r = Some (RelArr res) ∧ length res ≤ 3).
Proof.
  split; [reflexivity|].
  exact (proj1 (proj2 (findRelatedPosts_limits
                         (Sample.heap_of [Sample.pa; Sample.pc; Sample.pab])
                         Sample.manager
                         [Sample.pa; Sample.pc; Sample.pab] Sample.reference
                         eq_refl))).
Defined.

(** ** Counting words *)

Lemma trimStart_decompose s :
  ∃ ws, Forall (λ c, is_space c) ws ∧ s = ws ++ trimStart s.
Proof.
  induction s as [|c s (ws & Hws & Hs)]; simpl.
  - by exists [].
  - destruct (is_space c) eqn:Hc.
    + exists (c :: ws). split; [constructor; [by rewrite Hc|done]|].
      simpl. by f_equal.
    + by exists [].
Qed.

Lemma trimStart_head s :
  match trimStart s with
  | [] => True
  | c :: _ => is_space c = false
  end.
Proof.
  induction s as [|c s IH]; simpl; [done|].
  by destruct (is_space c) eqn:Hc.
Qed.

Lemma trimEnd_decompose s :
  ∃ ws, Forall (λ c, is_space c) ws ∧ s = trimEnd s ++ ws.
Proof.
  destruct (trimStart_decompose (reverse s)) as (ws & Hws & Hs).
  exists (reverse ws). split; [by apply Forall_reverse|].
  unfold trimEnd. rewrite <- reverse_app, <- Hs. by rewrite reverse_involutive.
Qed.

Lemma ends_in_word_snoc s c : ends_in_word (s ++ [c]) = negb (is_space c).
Proof.
  induction s as [|d s IH]; [done|].
  simpl. rewrite IH. by destruct s.
Qed.

Lemma trimEnd_ends_in_word s : trimEnd s = [] ∨ ends_in_word (trimEnd s) = true.
Proof.
  unfold trimEnd. pose proof (trimStart_head (reverse s)) as Hh.
  destruct (trimStart (reverse s)) as [|c u]; [by left|]. right.
  rewrite reverse_cons, ends_in_word_snoc. by rewrite Hh.
Qed.

Lemma count_words_from_spaces in_word ws :
  Forall (λ c, is_space c) ws → count_words_from in_word ws = 0.
Proof.
  intros Hws. revert in_word.
  induction Hws as [|c ws Hc _ IH]; intros in_word; simpl; [done|].
  apply Is_true_true in Hc. by rewrite Hc.
Qed.

Lemma count_words_from_app_spaces in_word s ws :
  Forall (λ c, is_space c) ws →
  count_words_from in_word (s ++ ws) = count_words_from in_word s.
Proof.
  intros Hws. revert in_word. induction s as [|c s IH]; intros in_word; simpl.
  - by apply count_words_from_spaces.
  - destruct (is_space c); by rewrite IH.
Qed.

Lemma count_words_spaces_app ws s :
  Forall (λ c, is_space c) ws → count_words (ws ++ s) = count_words s.
Proof.
  intros Hws. unfold count_words.
  induction Hws as [|c ws Hc _ IH]; simpl; [done|].
  apply Is_true_true in Hc. by rewrite Hc.
Qed.

Lemma count_words_trim s : count_words (trim s) = count_words s.
Proof.
  unfold trim.
  destruct (trimStart_decompose s) as (ws & Hws & Hs).
  destruct (trimEnd_decompose (trimStart s)) as (ws' & Hws' & Hs').
  rewrite Hs at 2. rewrite count_words_spaces_app by done.
  rewrite Hs' at 2. unfold count_words.
  by rewrite count_words_from_app_spaces.
Qed.

Lemma trim_head s :
  match trim s with
  | [] => True
  | c :: _ => is_space c = false
  end.
Proof.
  unfold trim. pose proof (trimStart_head s) as Hh.
  destruct (trimEnd_decompose (trimStart s)) as (ws & Hws & Hs).
  destruct (trimEnd (trimStart s)) as [|c u] eqn:He; [done|].
  rewrite Hs in Hh. done.
Qed.

(** In a text that ends in a word, the pieces are as many as the words that
    begin after the cursor, and one more when the cursor is in a word. *)
Lemma split_spaces_from_count s :
  (∀ acc, s = [] ∨ ends_in_word s = true →
     length (split_spaces_from false acc s) = 1 + count_words_from true s)
  ∧ (ends_in_word s = true →
     length (split_spaces_from true [] s) = count_words_from false s).
Proof.
  induction s as [|c s [IHword IHrun]].
  - split; [done|]. done.
  - assert (Hrest : ends_in_word (c :: s) = true →
              s = [] ∧ is_space c = false ∨ ends_in_word s = true).
    { simpl. destruct s; [|by right]. intros Hc. left.
      by apply negb_true_iff in Hc. }
    split.
    + intros acc [?|He]; [done|]. simpl.
      destruct (Hrest He) as [[-> Hc]|Hs].
      * by rewrite Hc.
      * destruct (is_space c); simpl.
        -- by rewrite IHrun.
        -- rewrite IHword by by right. done.
    + intros He. simpl.
      destruct (Hrest He) as [[-> Hc]|Hs].
      * by rewrite Hc.
      * destruct (is_space c); simpl.
        -- by rewrite IHrun.
        -- rewrite IHword by by right. done.
Qed.

Lemma words_count content :
  length (split_spaces (trim content)) = max 1 (count_words content).
Proof.
  rewrite <- count_words_trim.
  pose proof (trim_head content) as Hh.
  assert (He : trim content = [] ∨ ends_in_word (trim content) = true)
    by apply trimEnd_ends_in_word.
  destruct (trim content) as [|c t] eqn:Ht; [done|].
  destruct (split_spaces_from_count (c :: t)) as [Hword _].
  unfold split_spaces. rewrite Hword by done.
  unfold count_words. simpl. rewrite Hh. lia.
Qed.

(** X8. The word count of [calculateReadingTime] is the number of maximal
    runs of code units that are not white space, and 1 when there is no such
    run; the minutes are that count divided by 200, rounded up. *)
Theorem calculateReadingTime_counts_words (content : ustring) :
  words (calculateReadingTime content)
  = Z.of_nat (max 1 (count_words content))
  ∧ minutes (calculateReadingTime content)
    = ((Z.of_nat (max 1 (count_words content)) + 199) / 200)%Z.
Proof.
  unfold calculateReadingTime. simpl. rewrite words_count.
  split; [done|]. unfold ceil_div.
  generalize (Z.of_nat (1 `max` count_words content)). intros n.
  pose proof (Z.div_mod (- n) 200). pose proof (Z.mod_pos_bound (- n) 200).
  pose proof (Z.div_mod (n + 199) 200).
  pose proof (Z.mod_pos_bound (n + 199) 200).
  lia.
Qed.

(** X9. White space before and after the content, of any length and kind,
    does not change the reading time. *)
Theorem calculateReadingTime_ignores_padding (before content after : ustring) :
  forallb is_space before = true →
  forallb is_space after = true →
  calculateReadingTime (before ++ content ++ after)
  = calculateReadingTime content.
Proof.
  intros Hb Ha. apply Is_true_true, forallb_True in Hb, Ha.
  unfold calculateReadingTime.
  rewrite (words_count (before ++ content ++ after)), (words_count content).
  rewrite count_words_spaces_app by done. unfold count_words.
  by rewrite count_words_from_app_spaces.
Qed.

Lemma calculateReadingTime_ignores_padding_witness :
  forallb is_space [32; 10]%N = true
  ∧ forallb is_space [9]%N = true
  ∧ calculateReadingTime ([32; 10] ++ [104; 105; 32; 121; 111; 117] ++ [9])%N
    = calculateReadingTime [104; 105; 32; 121; 111; 117]%N.
Proof.
  split; [reflexivity|]. split; [reflexivity|].
  apply (calculateReadingTime_ignores_padding [32; 10]%N
           [104; 105; 32; 121; 111; 117]%N [9]%N); reflexivity.
Defined.

(** * More of [SEOMetadataBuilder] *)

(** ** [fromBlogPost], in full *)

Tactic Notation "alloc_keep" hyp(Hb) ident(l) ident(Hl) :=
  let Hb' := fresh "Hb" in
  apply returns_bind; eapply returns_mono; [apply returns_alloc|];
  intros l ? [Hl ->];
  epose proof (builder_at_alloc _ _ _ _ l _ Hb Hl) as Hb';
  clear Hb; rename Hb' into Hb.

Ltac unallocated H :=
  repeat
    (let Hne := fresh "Hne" in
     apply lookup_insert_None in H as [H Hne]).

Ltac find_cell :=
  repeat (rewrite lookup_insert_ne by congruence); apply lookup_insert_eq.

Lemma fromBlogPost_heap SITE_website SITE_title toISOString post baseUrl h :
  returns (fromBlogPost SITE_website SITE_title toISOString post baseUrl) h
    (λ b h', ∃ m og tw au lg pb sc,
       let image :=
         if present (ogImage (data post))
         then baseUrl +:+ default "" (ogImage (data post))
         else baseUrl +:+ "/og.png" in
       builder_at h' b m
         (<["schema" := VRef sc]>
            (<["twitter" := VRef tw]>
               (<["openGraph" := VRef og]>
                  (<["canonical" :=
                       VString (if present (canonicalURL (data post))
                                then default "" (canonicalURL (data post))
                                else baseUrl +:+ "/posts/" +:+ id post)]>
                     (<["description" := VString (description (data post))]>
                        (<["title" := VString (title (data post))]> ∅))))))
       ∧ h' !! og
         = Some (object [("title", VString (title (data post)));
                         ("description", VString (description (data post)));
                         ("image", VString image);
                         ("type", VString "article")])
       ∧ h' !! tw
         = Some (object [("card", VString "summary_large_image");
                         ("site", VString SITE_website);
                         ("creator", VString (author (data post)))])
       ∧ h' !! au
         = Some (object [("@type", VString "Person");
                         ("name", VString (author (data post)))])
       ∧ h' !! lg
         = Some (object [("@type", VString "ImageObject");
                         ("url", VString (baseUrl +:+ "/favicon.svg"))])
       ∧ h' !! pb
         = Some (object [("@type", VString "Organization");
                         ("name", VString SITE_title);
                         ("logo", VRef lg)])
       ∧ h' !! sc
         = Some (object
                   ([("@context", VString "https://schema.org");
                     ("@type", VString "BlogPosting");
                     ("headline", VString (title (data post)));
                     ("description", VString (description (data post)));
                     ("image", VString image);
                     ("datePublished",
                      VString (toISOString (pubDatetime (data post))))]
                    ++ match modDatetime (data post) with
                       | Some d => [("dateModified", VString (toISOString d))]
                       | None => []
                       end
                    ++ [("author", VRef au); ("publisher", VRef pb)]))
       ∧ h ⊆ h'
       ∧ NoDup [b; m; og; tw; au; lg; pb; sc]
       ∧ Forall (λ l, h !! l = None) [b; m; og; tw; au; lg; pb; sc]).
Proof.
  unfold fromBlogPost. apply returns_bind.
  eapply returns_mono; [apply returns_new_SEOMetadataBuilder|].
  intros b h0 (m & Hb & Hb0 & Hm0 & Hsub0). apply returns_bind.
  pose proof Hb as (Hbm & (ob & Hbcell & _) & Hmcell).
  eapply returns_mono; [eapply returns_setBasicMetadata, Hb|].
  intros ? ? [-> ->].
  epose proof (builder_at_update _ _ _ _ _ Hb) as Hb'. clear Hb. rename Hb' into Hb.
  unfold setCanonical, setOpenGraph, setTwitter, setSchema.
  setter_step Hb.
  alloc_keep Hb og Hog. setter_step Hb.
  alloc_keep Hb tw Htw. setter_step Hb.
  alloc_keep Hb au Hau. alloc_keep Hb lg Hlg. alloc_keep Hb pb Hpb.
  alloc_keep Hb sc Hsc. setter_step Hb.
  apply returns_ret. exists m, og, tw, au, lg, pb, sc. simpl.
  unallocated Hog. unallocated Htw. unallocated Hau. unallocated Hlg.
  unallocated Hpb. unallocated Hsc.
  assert (og ≠ b ∧ tw ≠ b ∧ au ≠ b ∧ lg ≠ b ∧ pb ≠ b ∧ sc ≠ b) as Hnb
    by (repeat split; intros ->; congruence).
  destruct Hnb as (? & ? & ? & ? & ? & ?).
  assert (Hfresh : Forall (λ l, h !! l = None) [b; m; og; tw; au; lg; pb; sc]).
  { repeat (constructor; [done || by eapply lookup_weaken_None|]). constructor. }
  split; [exact Hb|].
  repeat (split; [find_cell|]).
  split; [|split; [|exact Hfresh]].
  - apply map_subseteq_spec. intros l c Hl.
    assert (Forall (λ l', l' ≠ l) [b; m; og; tw; au; lg; pb; sc]) as Hnew.
    { eapply Forall_impl; [exact Hfresh|]. intros l' Hl' ->. congruence. }
    repeat (apply Forall_cons in Hnew as [? Hnew]).
    rewrite !lookup_insert_ne by done. by eapply lookup_weaken.
  - repeat (apply NoDup_cons; split;
            [rewrite ?elem_of_cons, elem_of_nil; intros Hin;
             repeat destruct Hin as [Hin|Hin]; congruence|]).
    apply NoDup_nil_2.
Qed.

(** ** Chains of setters *)

Lemma mutate_run h this m om μ :
  builder_at h this m om →
  μ ≠ MReset →
  returns (mutate this μ) h
    (λ _ h', h' = <[m := Obj (assign_all (written μ) om)]> h).
Proof.
  intros Hb Hμ.
  assert (Hfield : ∀ k v,
    returns ((let! m := metadata_of this in set_prop m k v;;; ret this);;; ret ()) h
      (λ _ h', h' = <[m := Obj (<[k := v]> om)]> h)).
  { intros k v. apply returns_bind.
    eapply returns_mono; [by eapply returns_set_field|].
    intros ? ? [-> ->]. by apply returns_ret. }
  destruct μ; simpl; try done; try apply Hfield.
  - apply returns_bind.
    eapply returns_mono; [by eapply returns_setBasicMetadata|].
    intros ? ? [-> ->]. by apply returns_ret.
  - apply returns_bind.
    eapply returns_mono; [by eapply returns_metadata_of|].
    intros ? ? [-> ->]. by apply (returns_set_prop _ _ _ om), Hb.
Qed.





Lemma builder_sample :
  builder_at Sample.builder_heap Sample.builder_loc Sample.metadata_loc
    Sample.builder_props.
Proof.
  split; [discriminate|]. split; [|reflexivity].
  eexists. split; reflexivity.
Defined.



(** X11. When [build] returns, it returns the metadata object of the builder
    itself, the one [getPartial] returns, and changes nothing: what a later
    setter call on the builder assigns shows in the object returned, so a
    canonical URL set after [build] is the canonical URL of the object
    built. *)
Theorem build_returns_the_object_held h this m om :
  builder_at h this m om →
  ¬ absent_or_empty (field om "title") →
  ¬ absent_or_empty (field om "description") →
  returns (build this) h
    (λ o h1,
       h1 = h
       ∧ returns (getPartial this) h1 (λ o' _, o' = o)
       ∧ (∀ μ, μ ≠ MReset →
            returns (mutate this μ) h1
              (λ _ h2, h2 !! o = Some (Obj (assign_all (written μ) om))))
       ∧ ∀ url,
           returns (setCanonical this url) h1
             (λ _ h2, returns (get_prop o "canonical") h2
                        (λ v _, v = VString url))).
Proof.
  intros Hb Ht Hd.
  rewrite <- truthy_false in Ht, Hd. apply not_false_is_true in Ht, Hd.
  exists m, h. split; [by rewrite (build_run _ _ _ _ Hb), Ht, Hd|].
  split; [done|]. split; [|split].
  - eapply returns_mono; [by eapply returns_metadata_of|]. by intros ? ? [-> _].
  - intros μ Hμ. eapply returns_mono; [by eapply mutate_run|].
    intros ? ? ->. apply lookup_insert_eq.
  - intros url. eapply returns_mono; [by eapply returns_set_field|].
    intros ? ? [-> ->].
    eapply returns_mono; [apply returns_get_prop, lookup_insert_eq|].
    intros ? ? [-> _]. by rewrite lookup_insert_eq.
Qed.

Lemma build_returns_the_object_held_witness :
  builder_at Sample.builder_heap Sample.builder_loc Sample.metadata_loc
    Sample.builder_props
  ∧ ¬ absent_or_empty (field Sample.builder_props "title")
  ∧ ¬ absent_or_empty (field Sample.builder_props "description")
  ∧ returns (build Sample.builder_loc) Sample.builder_heap
      (λ o h1,
         h1 = Sample.builder_heap
         ∧ returns (getPartial Sample.builder_loc) h1 (λ o' _, o' = o)
         ∧ (∀ μ, μ ≠ MReset →
              returns (mutate Sample.builder_loc μ) h1
                (λ _ h2, h2 !! o
                         = Some (Obj (assign_all (written μ)
                                        Sample.builder_props))))
         ∧ ∀ url,
             returns (setCanonical Sample.builder_loc url) h1
               (λ _ h2, returns (get_prop o "canonical") h2
                          (λ v _, v = VString url))).
Proof.
  assert (Ht : ¬ absent_or_empty (field Sample.builder_props "title")).
  { intros [?|?]; discriminate. }
  assert (Hd : ¬ absent_or_empty (field Sample.builder_props "description")).
  { intros [?|?]; discriminate. }
  split; [exact builder_sample|]. split; [exact Ht|]. split; [exact Hd|].
  exact (build_returns_the_object_held _ _ _ _ builder_sample Ht Hd).
Defined.

(** X12. [reset] returns its receiver and gives it a new, empty metadata
    object, on which [build] throws.  The metadata object it had, which
    [build] or [getPartial] may have handed out, keeps its properties, and no
    later call on the builder changes it. *)
Theorem reset_replaces_the_object h this m om :
  builder_at h this m om →
  returns (reset this) h
    (λ r h1,
       r = this
       ∧ h1 !! m = Some (Obj om)
       ∧ ∃ m', h !! m' = None
               ∧ builder_at h1 this m' ∅
               ∧ build this h1 = Throw required_msg h1
               ∧ ∀ μ, returns (mutate this μ) h1
                        (λ _ h2, h2 !! m = Some (Obj om))).
Proof.
  intros Hb. pose proof Hb as (Hne & _ & Hom).
  eapply returns_mono; [by eapply returns_reset|].
  intros ? h1 (-> & m' & ob & Hm' & -> & Hb1). split; [done|].
  assert (m' ≠ m) by (intros ->; congruence).
  assert (Hm1 : <[this:=Obj ob]> (<[m':=Obj ∅]> h) !! m = Some (Obj om)).
  { by rewrite !lookup_insert_ne by done. }
  split; [done|]. exists m'. split; [done|]. split; [done|].
  split; [by rewrite (build_run _ _ _ _ Hb1)|].
  intros μ. eapply returns_mono; [by eapply mutate_frame|].
  intros ? h2 Hframe. simpl in Hframe. rewrite <- Hm1.
  apply Hframe; [done..|]. by rewrite Hm1.
Qed.

Lemma reset_replaces_the_object_witness :
  builder_at Sample.builder_heap Sample.builder_loc Sample.metadata_loc
    Sample.builder_props
  ∧ returns (reset Sample.builder_loc) Sample.builder_heap
      (λ r h1,
         r = Sample.builder_loc
         ∧ h1 !! Sample.metadata_loc = Some (Obj Sample.builder_props)
         ∧ ∃ m', Sample.builder_heap !! m' = None
                 ∧ builder_at h1 Sample.builder_loc m' ∅
                 ∧ build Sample.builder_loc h1 = Throw required_msg h1
                 ∧ ∀ μ, returns (mutate Sample.builder_loc μ) h1
                          (λ _ h2, h2 !! Sample.metadata_loc
                                   = Some (Obj Sample.builder_props))).
Proof.
  split; [exact builder_sample|].
  exact (reset_replaces_the_object _ _ _ _ builder_sample).
Defined.

(** X13. A clone builds exactly when the original does: where [build] on the
    original returns its metadata object, [build] on the clone returns
    another object, new, with the same properties; where it throws on the
    original it throws on the clone. *)
Theorem clone_builds_alike h this m om :
  builder_at h this m om →
  returns (clone this) h
    (λ c h1, ∃ mc,
       mc ≠ m ∧ h !! mc = None
       ∧ (build this h = Ret m h →
          build c h1 = Ret mc h1 ∧ h1 !! mc = Some (Obj om))
       ∧ (build this h = Throw required_msg h →
          build c h1 = Throw required_msg h1)).
Proof.
  intros Hb. pose proof Hb as (_ & _ & Hom).
  eapply returns_mono; [by eapply returns_clone|].
  intros c h1 (mc & Hc & _ & Hmc & _). exists mc.
  split; [intros ->; congruence|]. split; [done|].
  rewrite (build_run _ _ _ _ Hb), (build_run _ _ _ _ Hc).
  destruct (truthy (field om "title") && truthy (field om "description")).
  - split; [|done]. intros _. split; [done|]. by destruct Hc as (_ & _ & ?).
  - split; [done|]. done.
Qed.

Lemma clone_builds_alike_witness :
  builder_at Sample.builder_heap Sample.builder_loc Sample.metadata_loc
    Sample.builder_props
  ∧ returns (clone Sample.builder_loc) Sample.builder_heap
      (λ c h1, ∃ mc,
         mc ≠ Sample.metadata_loc ∧ Sample.builder_heap !! mc = None
         ∧ (build Sample.builder_loc Sample.builder_heap
            = Ret Sample.metadata_loc Sample.builder_heap →
            build c h1 = Ret mc h1
            ∧ h1 !! mc = Some (Obj Sample.builder_props))
         ∧ (build Sample.builder_loc Sample.builder_heap
            = Throw required_msg Sample.builder_heap →
            build c h1 = Throw required_msg h1)).
Proof.
  split; [exact builder_sample|].
  exact (clone_builds_alike _ _ _ _ builder_sample).
Defined.

(** ** What [fromBlogPost] builds *)

Lemma returns_read_nested h this m om block l o k :
  builder_at h this m om →
  om !! block = Some (VRef l) →
  h !! l = Some (Obj o) →
  returns (read_nested this block k) h
    (λ v h', v = default VUndefined (o !! k) ∧ h' = h).
Proof.
  intros Hb Hblock Hl. pose proof Hb as (_ & _ & Hom).
  unfold read_nested, getPartial. apply returns_bind.
  eapply returns_mono; [by eapply returns_metadata_of|].
  intros ? ? [-> ->]. apply returns_bind.
  eapply returns_mono; [by apply returns_get_prop|].
  intros ? ? [-> ->]. rewrite Hblock. simpl. by apply returns_get_prop.
Qed.

Lemma returns_assign_nested h this m om block l o k v :
  builder_at h this m om →
  om !! block = Some (VRef l) →
  h !! l = Some (Obj o) →
  returns (assign_nested this block k v) h
    (λ _ h', h' = <[l := Obj (<[k := v]> o)]> h).
Proof.
  intros Hb Hblock Hl. pose proof Hb as (_ & _ & Hom).
  unfold assign_nested, getPartial. apply returns_bind.
  eapply returns_mono; [by eapply returns_metadata_of|].
  intros ? ? [-> ->]. apply returns_bind.
  eapply returns_mono; [by apply returns_get_prop|].
  intros ? ? [-> ->]. rewrite Hblock. simpl. by apply returns_set_prop.
Qed.

(** The value of a property in an object literal *)
Ltac literal :=
  unfold object; cbn [list_to_map foldr app fst snd];
  repeat (rewrite lookup_insert_ne by done);
  rewrite ?lookup_insert_eq, ?lookup_empty; try reflexivity.

(** X14. [build] on the builder that [fromBlogPost] returns throws exactly
    when the title or the description of the post is the empty string;
    otherwise it returns, without a change, an object whose title and
    description are those of the post. *)
Theorem fromBlogPost_then_build
    (SITE_website SITE_title : string) (toISOString : Z → string)
    (post : Post) (baseUrl : string) h :
  returns (fromBlogPost SITE_website SITE_title toISOString post baseUrl) h
    (λ b h',
       (title (data post) = "" ∨ description (data post) = "" →
        build b h' = Throw required_msg h')
       ∧ (title (data post) ≠ "" → description (data post) ≠ "" →
          returns (build b) h'
            (λ o h'',
               h'' = h'
               ∧ returns (get_prop o "title") h''
                   (λ v _, v = VString (title (data post)))
               ∧ returns (get_prop o "description") h''
                   (λ v _, v = VString (description (data post)))))).
Proof.
  eapply returns_mono; [apply fromBlogPost_heap|].
  intros b h' (m & og & tw & au & lg & pb & sc & Hb & _). simpl in Hb.
  pose proof Hb as (_ & _ & Hom).
  pose proof (build_run _ _ _ _ Hb) as Hbuild.
  pose proof (returns_get_prop m "title" _ h' Hom) as Htitle.
  pose proof (returns_get_prop m "description" _ h' Hom) as Hdesc.
  unfold field in Hbuild.
  rewrite !lookup_insert_ne, lookup_insert_eq in Htitle by done.
  rewrite !lookup_insert_ne, lookup_insert_eq in Hdesc by done.
  rewrite (lookup_insert_ne _ "schema" "title"),
    (lookup_insert_ne _ "twitter" "title"),
    (lookup_insert_ne _ "openGraph" "title"),
    (lookup_insert_ne _ "canonical" "title"),
    (lookup_insert_ne _ "description" "title"), lookup_insert_eq
    in Hbuild by done.
  rewrite !lookup_insert_ne, lookup_insert_eq in Hbuild by done.
  simpl in Hbuild, Htitle, Hdesc. split.
  - intros [Hz|Hz]; rewrite Hbuild, Hz; simpl; [done|]. by rewrite andb_false_r.
  - intros Ht Hd. apply String.eqb_neq in Ht, Hd.
    rewrite Ht, Hd in Hbuild. simpl in Hbuild.
    exists m, h'. split; [done|]. split; [done|]. split.
    + eapply returns_mono; [exact Htitle|]. by intros ? ? [-> _].
    + eapply returns_mono; [exact Hdesc|]. by intros ? ? [-> _].
Qed.

(** X15. In what [fromBlogPost] builds, the image of the social card
    ([openGraph.image]) and the image of the structured data
    ([schema.image]) are the same URL: the base URL followed by the image
    path of the post when the post gives one that is not empty, and by
    [/og.png] otherwise. *)
Theorem fromBlogPost_image
    (SITE_website SITE_title : string) (toISOString : Z → string)
    (post : Post) (baseUrl : string) h :
  returns (fromBlogPost SITE_website SITE_title toISOString post baseUrl) h
    (λ b h', ∃ image,
       returns (read_nested b "openGraph" "image") h' (λ v _, v = VString image)
       ∧ returns (read_nested b "schema" "image") h' (λ v _, v = VString image)
       ∧ (∀ path, ogImage (data post) = Some path → path ≠ "" →
            image = baseUrl +:+ path)
       ∧ (ogImage (data post) = None ∨ ogImage (data post) = Some "" →
            image = baseUrl +:+ "/og.png")).
Proof.
  eapply returns_mono; [apply fromBlogPost_heap|].
  intros b h' (m & og & tw & au & lg & pb & sc & Hb & Hog & _ & _ & _ & _ & Hsc & _).
  simpl in *. eexists. split; [|split; [|split]].
  - eapply returns_mono;
      [eapply (returns_read_nested _ _ _ _ "openGraph"); [exact Hb| |exact Hog]|].
    + by rewrite !lookup_insert_ne, lookup_insert_eq by done.
    + intros ? ? [-> _]. literal.
  - eapply returns_mono;
      [eapply (returns_read_nested _ _ _ _ "schema"); [exact Hb| |exact Hsc]|].
    + by rewrite lookup_insert_eq.
    + intros ? ? [-> _]. literal.
  - intros path -> Hp. simpl. apply String.eqb_neq in Hp. by rewrite Hp.
  - by intros [-> | ->].
Qed.

(** X16. The structured data that [fromBlogPost] builds has type
    [BlogPosting], the title of the post as headline and the publish date in
    ISO format; it has a [dateModified], the modification date in ISO format,
    exactly when the post has a modification date. *)
Theorem fromBlogPost_structured_data
    (SITE_website SITE_title : string) (toISOString : Z → string)
    (post : Post) (baseUrl : string) h :
  returns (fromBlogPost SITE_website SITE_title toISOString post baseUrl) h
    (λ b h',
       returns (read_nested b "schema" "@type") h'
         (λ v _, v = VString "BlogPosting")
       ∧ returns (read_nested b "schema" "headline") h'
           (λ v _, v = VString (title (data post)))
       ∧ returns (read_nested b "schema" "datePublished") h'
           (λ v _, v = VString (toISOString (pubDatetime (data post))))
       ∧ returns (read_nested b "schema" "dateModified") h'
           (λ v _, v = match modDatetime (data post) with
                       | Some d => VString (toISOString d)
                       | None => VUndefined
                       end)).
Proof.
  eapply returns_mono; [apply fromBlogPost_heap|].
  intros b h' (m & og & tw & au & lg & pb & sc & Hb & _ & _ & _ & _ & _ & Hsc & _).
  simpl in *. unfold object in Hsc.
  set (o := list_to_map _) in Hsc.
  assert (Hread : ∀ k,
    returns (read_nested b "schema" k) h'
      (λ v _, v = default VUndefined (o !! k))).
  { intros k. eapply returns_mono;
      [eapply (returns_read_nested _ _ _ _ "schema"); [exact Hb| |exact Hsc]|].
    - by rewrite lookup_insert_eq.
    - by intros ? ? [-> _]. }
  repeat split.
  - eapply returns_mono; [apply Hread|]. intros ? ? ->. subst o. literal.
  - eapply returns_mono; [apply Hread|]. intros ? ? ->. subst o. literal.
  - eapply returns_mono; [apply Hread|]. intros ? ? ->. subst o. literal.
  - eapply returns_mono; [apply Hread|]. intros ? ? ->. subst o.
    destruct (modDatetime (data post)); literal.
Qed.
